(** * BananaTalk signaling backend: registry, match maker, router

    A shallow embedding of the Go backend (package [main]): the client
    registry [clients], the [MatchMaker] with its waiting queue and wake
    channel, the message router [handleMessage], the authentication prelude
    and the read loop of [handleConnections], and the older channel-based
    [matchingLoop].

    Conventions.
    - A [*Client] is represented by its fields.  [Conn] stands for the address
      of the [*websocket.Conn]; every upgrade yields a fresh connection, so
      equality of [Client] records coincides with pointer equality for the
      clients the server creates.
    - Every mutex-protected region is one atomic state transformer on
      [World]; goroutine interleavings are sequences of such transformers.
    - [WriteJSON] fails exactly on the connections listed in [dead]; each call
      is recorded, with its outcome, in [wire].
    - [slog] calls append to [logs]; the [error] attribute is left out.
    - Time is a count of nanoseconds.  The heartbeat goroutine only writes
      ping control frames; what it draws from the peer are the [Pong]
      arrivals of the read loop's input.  Write deadlines are part of what
      makes a connection [dead].
    - [handleConnections] and [Pending.matchingLoop] run one goroutine with
      nothing in between; [step] and [run], and [PendingRun.run] for the older
      server, interleave the handlers and the pairing loop, and what is said
      of the server among other connections is said over these.
    - A [Message] holds its payload as decoded; [Unmarshal] is the decoding
      of a frame as sent, through [float64] and [map]. *)

From Stdlib Require Import ZArith String Ascii List Bool Lia DecimalString.
From stdpp Require Import base gmap strings list.
Import ListNotations.
Local Open Scope string_scope.
Local Open Scope list_scope.
Local Open Scope nat_scope.
Local Open Scope stdpp_scope.

(** ** Data model *)

(** A decoded [interface{}] payload. *)
#[local] Set Warnings "-register-all".
Inductive json : Type :=
| JNull
| JBool (b : bool)
| JNumber (literal : string)
| JString (s : string)
| JArray (items : list json)
| JObject (fields : list (string * json)).
#[local] Set Warnings "register-all".

Record Message : Type := mkMessage {
  Type_ : string;
  Payload : json;
  To : string;
  From_ : string }.

Record Client : Type := mkClient {
  ID : string;
  Conn : nat }.

#[global] Instance Client_eq_dec : EqDecision Client.
Proof. solve_decision. Defined.

Inductive Level : Type := Info | Warn | Error.

Record LogRecord : Type := mkLog {
  level : Level;
  text : string;
  attrs : list (string * string) }.

(** One call of [WriteJSON]: the connection, the value, and whether the
    write succeeded. *)
Record Written : Type := mkWritten {
  wconn : nat;
  wmsg : Message;
  wok : bool }.

Record World : Type := mkWorld {
  clients : gmap string Client;   (* var clients map[string]*Client *)
  queue : list Client;            (* matchMaker.queue *)
  notify : bool;                  (* matchMaker.notify, capacity 1 *)
  dead : list nat;                (* connections whose writes fail *)
  wire : list Written;
  logs : list LogRecord }.

Definition set_clients (f : gmap string Client → gmap string Client) (w : World) : World :=
  mkWorld (f (clients w)) (queue w) (notify w) (dead w) (wire w) (logs w).

Definition set_queue (q : list Client) (w : World) : World :=
  mkWorld (clients w) q (notify w) (dead w) (wire w) (logs w).

Definition set_notify (b : bool) (w : World) : World :=
  mkWorld (clients w) (queue w) b (dead w) (wire w) (logs w).

Definition set_dead (d : list nat) (w : World) : World :=
  mkWorld (clients w) (queue w) (notify w) d (wire w) (logs w).

Definition slog (l : Level) (t : string) (kv : list (string * string)) (w : World) : World :=
  mkWorld (clients w) (queue w) (notify w) (dead w) (wire w) (logs w ++ [mkLog l t kv]).

Definition is_dead (conn : nat) (w : World) : bool :=
  bool_decide (conn ∈ dead w).

(** [(c *Client) WriteJSON(v)]: [true] in the first component is a non-nil
    error. *)
Definition WriteJSON (c : Client) (v : Message) (w : World) : bool * World :=
  let failed := is_dead (Conn c) w in
  (failed,
   mkWorld (clients w) (queue w) (notify w) (dead w)
           (wire w ++ [mkWritten (Conn c) v (negb failed)]) (logs w)).

(** [if err != nil { slog.Error(...) }] *)
Definition log_if (b : bool) (t : string) (kv : list (string * string)) (w : World) : World :=
  if b then slog Error t kv w else w.

(** ** Match maker *)

Module MatchMaker.

(** The non-blocking send [select { case m.notify <- struct{}{}: default: }]. *)
Definition post (w : World) : World := set_notify true w.

Definition Add (c : Client) (w : World) : World :=
  post (slog Info "Adding client to match queue" [("client_id", ID c)]
          (set_queue (queue w ++ [c]) w)).

(** The index at which [for i, client := range m.queue] first finds
    [client.ID == id], counting from [i]. *)
Fixpoint index_of (id : string) (q : list Client) (i : nat) : option nat :=
  match q with
  | [] => None
  | client :: q' =>
      if String.eqb (ID client) id then Some i else index_of id q' (S i)
  end.

Definition Remove (c : Client) (w : World) : World :=
  match index_of (ID c) (queue w) 0 with
  | Some i =>
      slog Info "Removed client from match queue" [("client_id", ID c)]
        (set_queue (take i (queue w) ++ drop (S i) (queue w)) w)
  | None => w
  end.

Definition match_msg (peer : string) : Message :=
  mkMessage "match" (JString peer) "" "".

(** One turn of the [for] loop of [Run].  With no wake buffered the receive
    [<-m.notify] blocks and the world is unchanged. *)
Definition Run_iter (w : World) : World :=
  if notify w then
    let w := set_notify false w in
    match queue w with
    | c1 :: c2 :: rest =>
        let w := set_queue rest w in
        let w := slog Info "Matching clients" [("client1", ID c1); ("client2", ID c2)] w in
        let '(err1, w) := WriteJSON c1 (match_msg (ID c2)) w in
        let '(err2, w) := WriteJSON c2 (match_msg (ID c1)) w in
        let w := log_if err1 "Failed to send match to client 1" [("client_id", ID c1)] w in
        let w := log_if err2 "Failed to send match to client 2" [("client_id", ID c2)] w in
        if bool_decide (2 ≤ length (queue w))%nat then post w else w
    | _ => w
    end
  else w.

(** [n] scheduled turns of the loop. *)
Fixpoint Run (n : nat) (w : World) : World :=
  match n with
  | O => w
  | S n' => Run n' (Run_iter w)
  end.

End MatchMaker.

(** ** Message router *)

Definition handleMessage (msg : Message) (w : World) : World :=
  if String.eqb (To msg) "" then w
  else
    match clients w !! To msg with
    | Some target =>
        let '(err, w) := WriteJSON target msg w in
        log_if err "Failed to send message" [("to", To msg)] w
    | None => w
    end.

(** ** Connection manager *)

(** [time.Duration] values, in nanoseconds. *)
Definition Second : Z := 1000000000.
Definition writeWait : Z := 10 * Second.
Definition pongWait : Z := 60 * Second.

Definition StatusUnauthorized : nat := 401.

Record Request : Type := mkRequest {
  query_token : string;      (* r.URL.Query().Get("token") *)
  Authorization : string;    (* r.Header.Get("Authorization") *)
  RemoteAddr : string }.

Definition min (a b : nat) : nat := if a <? b then a else b.

Definition HasPrefix (s prefix : string) : bool := String.prefix prefix s.

Definition TrimPrefix (s prefix : string) : string :=
  if HasPrefix s prefix
  then String.substring (String.length prefix) (String.length s - String.length prefix) s
  else s.

(** Step 1 of [handleConnections]: the query parameter, or else the bearer
    header. *)
Definition bearer_token (r : Request) : string :=
  let token := query_token r in
  if String.eqb token "" then
    let authHeader := Authorization r in
    if HasPrefix authHeader "Bearer " then TrimPrefix authHeader "Bearer " else token
  else token.

(** What [conn.ReadJSON] returns: a decoded message, or an error, with the
    verdict of [websocket.IsUnexpectedCloseError] on it. *)
Inductive ReadResult : Type :=
| ReadOk (msg : Message)
| ReadErr (unexpected : bool).

(** What reaches the connection, stamped with its arrival time: a pong
    control frame, served by the pong handler from inside the pending
    [ReadJSON], or something that makes [ReadJSON] return.  A read still
    pending when the read deadline passes fails with a timeout, which is not
    a close error. *)
Inductive Inbound : Type :=
| Pong (at_ : Z)
| Data (at_ : Z) (r : ReadResult).

Definition set_From (clientID : string) (msg : Message) : Message :=
  mkMessage (Type_ msg) (Payload msg) (To msg) clientID.

Definition read_failed (clientID : string) (unexpected : bool) (w : World) : World :=
  if unexpected then slog Error "WebSocket error" [("client_id", clientID)] w
  else slog Info "Client disconnected (ReadJSON)" [("client_id", clientID)] w.

(** The [for] loop around [conn.ReadJSON], from the read deadline in force.
    The result is the time at which the loop is left and the world then. *)
Fixpoint read_loop (clientID : string) (deadline : Z) (ins : list Inbound) (w : World)
  : Z * World :=
  match ins with
  | [] => (deadline, read_failed clientID false w)
  | Pong t :: rest =>
      if (t <=? deadline)%Z then read_loop clientID (t + pongWait)%Z rest w
      else (deadline, read_failed clientID false w)
  | Data t r :: rest =>
      if (t <=? deadline)%Z then
        match r with
        | ReadOk msg => read_loop clientID deadline rest (handleMessage (set_From clientID msg) w)
        | ReadErr unexpected => (t, read_failed clientID unexpected w)
        end
      else (deadline, read_failed clientID false w)
  end.

(** The deferred cleanup closure followed by the deferred [conn.Close()]. *)
Definition teardown (client : Client) (w : World) : World :=
  let clientID := ID client in
  let w := set_clients (delete clientID) w in
  let w := MatchMaker.Remove client w in
  let w := slog Info "Client fully disconnected" [("client_id", clientID)] w in
  set_dead (Conn client :: dead w) w.

Definition init_msg (clientID : string) : Message :=
  mkMessage "init" (JString clientID) "" "".

(** From the registration of the new client to [matchMaker.Add]. *)
Definition establish (client : Client) (w : World) : World :=
  let clientID := ID client in
  let w := set_clients (insert clientID client) w in
  let w := slog Info "Client connected (Authenticated)" [("client_id", clientID)] w in
  let '(_, w) := WriteJSON client (init_msg clientID) w in
  MatchMaker.Add client w.

Inductive Outcome : Type :=
| Rejected (status : nat) (body : string)
| UpgradeFailed
| Served (client : Client) (left_at : Z).

Section Server.

(** [idtoken.Validate(ctx, token, "")]: [None] for an error, else the
    [Subject] of the payload. *)
Variable Validate : string → option string.

(** [upgrade] is the connection [upgrader.Upgrade] yields, if it succeeds;
    [now] the time at which the first read deadline is set; [ins] what then
    arrives on the connection. *)
Definition handleConnections (r : Request) (upgrade : option nat) (now : Z)
    (ins : list Inbound) (w : World) : Outcome * World :=
  let token := bearer_token r in
  if String.eqb token "" then
    (Rejected StatusUnauthorized "Missing authentication token",
     slog Warn "Connection attempt without token" [("remote_addr", RemoteAddr r)] w)
  else
    match Validate token with
    | None =>
        let w := slog Error "Token validation failed" [("remote_addr", RemoteAddr r)] w in
        let w := slog Info "JWT Token expired or invalid"
                   [("token_snippet",
                     String.append (String.substring 0 (min 10 (String.length token)) token) "...")] w in
        (Rejected StatusUnauthorized "Invalid token", w)
    | Some userID =>
        if String.eqb userID "" then
          (Rejected StatusUnauthorized "Invalid token claims",
           slog Error "Token payload missing subject" [("remote_addr", RemoteAddr r)] w)
        else
          match upgrade with
          | None => (UpgradeFailed, slog Error "WebSocket upgrade failed" [] w)
          | Some conn =>
              let clientID := userID in
              let client := mkClient clientID conn in
              let w := establish client w in
              let '(left_at, w) := read_loop clientID (now + pongWait)%Z ins w in
              (Served client left_at, teardown client w)
          end
    end.

End Server.

(** ** The channel-based matcher of the earlier server *)

Module Pending.

Definition isClientActive (c : Client) (w : World) : bool :=
  match clients w !! ID c with
  | Some activeClient => bool_decide (activeClient = c)
  | None => false
  end.

(** One turn of [matchingLoop]: [client] is what [<-matchQueue] delivers,
    [pending] the loop variable. *)
Definition matchingLoop_iter (client : Client) (st : option Client * World)
  : option Client * World :=
  let '(pending, w) := st in
  if negb (isClientActive client w) then
    (pending, slog Info "Skipping disconnected client" [("client_id", ID client)] w)
  else
    match pending with
    | None => (Some client, w)
    | Some p =>
        if negb (isClientActive p w) then
          (Some client,
           slog Info "Pending client disconnected, replacing with new client"
             [("old_pending", ID p); ("new_pending", ID client)] w)
        else if String.eqb (ID p) (ID client) then
          (Some p, slog Info "Skipping self-match" [("client_id", ID client)] w)
        else
          let c1 := p in
          let c2 := client in
          let w := slog Info "Matching clients" [("client1", ID c1); ("client2", ID c2)] w in
          let '(err1, w) := WriteJSON c1 (MatchMaker.match_msg (ID c2)) w in
          if err1 then
            (Some c2, slog Error "Failed to send match to pending client" [("client_id", ID c1)] w)
          else
            let '(err2, w) := WriteJSON c2 (MatchMaker.match_msg (ID c1)) w in
            (None, log_if err2 "Failed to send match to new client" [("client_id", ID c2)] w)
    end.

(** The loop over what the channel delivers, in order. *)
Definition matchingLoop (arrivals : list Client) (w : World) : option Client * World :=
  foldl (λ st client, matchingLoop_iter client st) (None, w) arrivals.

End Pending.

(** ** Observations *)

(** The world a freshly started server has: [clients] empty and
    [NewMatchMaker()]. *)
Definition initial : World := mkWorld ∅ [] false [] [] [].

(** The pairings the loop announced: the identities in its
    ["Matching clients"] log lines, in order. *)
Definition pairing_of (l : LogRecord) : option (string * string) :=
  if String.eqb (text l) "Matching clients" then
    match attrs l with
    | [(_, id1); (_, id2)] => Some (id1, id2)
    | _ => None
    end
  else None.

Definition pairings (w : World) : list (string * string) :=
  omap pairing_of (logs w).

(** The error lines one pairing turn of [Run] logs. *)
Definition match_failures (w : World) (c1 c2 : Client) : list LogRecord :=
  (if is_dead (Conn c1) w
   then [mkLog Error "Failed to send match to client 1" [("client_id", ID c1)]] else [])
  ++ (if is_dead (Conn c2) w
      then [mkLog Error "Failed to send match to client 2" [("client_id", ID c2)]] else []).

(** Pool operations, in the order the lock hands them the pool. *)
Inductive PoolOp : Type :=
| OpAdd (c : Client)
| OpRemove (c : Client)
| OpRun.

Definition apply_op (w : World) (op : PoolOp) : World :=
  match op with
  | OpAdd c => MatchMaker.Add c w
  | OpRemove c => MatchMaker.Remove c w
  | OpRun => MatchMaker.Run_iter w
  end.

Definition run_ops (ops : list PoolOp) (w : World) : World :=
  foldl apply_op w ops.

(** Is some client with this identity waiting? *)
Definition waiting (id : string) (w : World) : bool :=
  existsb (λ x, String.eqb (ID x) id) (queue w).

(** Every [Add] of the sequence passes the test [ok] on the world in which
    it is made. *)
Fixpoint adds_satisfy (ok : Client → World → bool) (ops : list PoolOp) (w : World) : bool :=
  match ops with
  | [] => true
  | op :: ops' =>
      match op with
      | OpAdd c => ok c w
      | _ => true
      end && adds_satisfy ok ops' (apply_op w op)
  end.

(** Each [Add] brings a client that is not itself in the pool, as
    [handleConnections] does, which adds each client it creates once. *)
Definition adds_are_fresh : list PoolOp → World → bool :=
  adds_satisfy (λ c w, negb (bool_decide (c ∈ queue w))).

(** Each [Add] brings an identity that is not waiting. *)
Definition adds_are_new : list PoolOp → World → bool :=
  adds_satisfy (λ c w, negb (waiting (ID c) w)).

Definition apart (w : World) : Prop :=
  NoDup (ID <$> queue w) ∧ Forall (λ p : string * string, p.1 ≠ p.2) (pairings w).

(** ** Draining the pool *)

(** The pairs the loop forms from a waiting queue, oldest first, and what is
    left waiting. *)
Fixpoint pair_up (q : list Client) : list (Client * Client) :=
  match q with
  | c1 :: c2 :: rest => (c1, c2) :: pair_up rest
  | _ => []
  end.

Fixpoint leftover (q : list Client) : list Client :=
  match q with
  | _ :: _ :: rest => leftover rest
  | _ => q
  end.

(** The two [WriteJSON] calls of one pairing. *)
Definition match_writes (w : World) (p : Client * Client) : list Written :=
  [mkWritten (Conn p.1) (MatchMaker.match_msg (ID p.2)) (negb (is_dead (Conn p.1) w));
   mkWritten (Conn p.2) (MatchMaker.match_msg (ID p.1)) (negb (is_dead (Conn p.2) w))].

(** ** Counting *)

Definition tally {A : Type} (f : A → bool) (l : list A) : nat :=
  length (List.filter f l).

Definition on_conn (k : nat) (c : Client) : bool := Nat.eqb (Conn c) k.

(** A [match] notification written to connection [k]. *)
Definition match_to (k : nat) (wr : Written) : bool :=
  Nat.eqb (wconn wr) k && String.eqb (Type_ (wmsg wr)) "match".

Definition added (op : PoolOp) : option Client :=
  match op with
  | OpAdd c => Some c
  | _ => None
  end.

Definition is_remove (op : PoolOp) : bool :=
  match op with
  | OpRemove _ => true
  | _ => false
  end.

(** The pool entries of one identity, oldest first. *)
Definition of_identity (id : string) (q : list Client) : list Client :=
  List.filter (λ x, String.eqb (ID x) id) q.

(** ** The connection handler of the earlier server *)

Module Earlier.

(** [handleConnections] beside the channel-based matcher, from the
    registration to the hand-over to [matchQueue]; the channel then delivers
    the client to [matchingLoop]. *)
Definition connect (client : Client) (w : World) : World :=
  let clientID := ID client in
  let w := set_clients (insert clientID client) w in
  let w := slog Info "Client connected (Authenticated)" [("client_id", clientID)] w in
  let '(_, w) := WriteJSON client (init_msg clientID) w in
  slog Info "Adding client to match queue" [("client_id", clientID)] w.

(** What follows its read loop, and the deferred [conn.Close()]. *)
Definition disconnect (client : Client) (w : World) : World :=
  let clientID := ID client in
  let w := set_clients (delete clientID) w in
  let w := slog Info "Client disconnected" [("client_id", clientID)] w in
  set_dead (Conn client :: dead w) w.

End Earlier.

(** ** Observing the channel-based matcher *)

(** What one turn of [matchingLoop] may do, seen from outside. *)
Definition turn_ok (arrivals : list Client) (pending0 : option Client) (w0 : World)
    (r : option Client * World) : Prop :=
  clients r.2 = clients w0
  ∧ dead r.2 = dead w0
  ∧ (r.1 = None ∨ r.1 = pending0 ∨ ∃ c, r.1 = Some c ∧ c ∈ arrivals)
  ∧ ∃ sent news,
      wire r.2 = wire w0 ++ sent
      ∧ pairings r.2 = pairings w0 ++ news
      ∧ Forall (λ wr, ∃ c, (c ∈ arrivals ∨ pending0 = Some c)
                           ∧ clients w0 !! ID c = Some c ∧ wconn wr = Conn c
                           ∧ Type_ (wmsg wr) = "match") sent
      ∧ Forall (λ p : string * string, p.1 ≠ p.2) news.

(** ** The client's side of a match *)

Module Signaling.

(** A Dart [String] as its UTF-16 code units; [compareTo] orders strings by
    code units. *)
Fixpoint compareTo (a b : list N) : comparison :=
  match a, b with
  | [], [] => Eq
  | [], _ :: _ => Lt
  | _ :: _, [] => Gt
  | x :: a', y :: b' =>
      match N.compare x y with
      | Eq => compareTo a' b'
      | c => c
      end
  end.

Record Peer : Type := mkPeer {
  selfId : option (list N);
  remoteId : option (list N);
  inCall : bool }.

(** [case 'init'] of [_handleMessage]. *)
Definition on_init (payload : list N) (st : Peer) : Peer :=
  mkPeer (Some payload) (remoteId st) (inCall st).

(** [case 'match']: the peer is remembered, and the result tells whether
    [_createOffer] is called.  [None] is the null check [_selfId!] throwing. *)
Definition on_match (payload : list N) (st : Peer) : option (Peer * bool) :=
  let st := mkPeer (selfId st) (Some payload) (inCall st) in
  match selfId st with
  | None => None
  | Some self =>
      Some (st, match compareTo self payload with Lt => true | _ => false end)
  end.

End Signaling.

(** [a] comes before [b] in the order of code units: where they first differ
    [a] has the smaller unit, or [a] is a proper prefix of [b]. *)
Definition precedes (a b : list N) : Prop :=
  (∃ p x y ra rb, a = p ++ x :: ra ∧ b = p ++ y :: rb ∧ (x < y)%N)
  ∨ (∃ y rb, b = a ++ y :: rb).

(** ** The server as interleaved steps *)

(** What the goroutines do to the shared state, one lock-protected region or
    one write at a time.  A connection handler is, in order, [Registers],
    [Greets], [Enqueues], any number of [Receives], one [Leaves], then the
    deferred [Unregisters], [Dequeues], [Closes]; [LoopTurn] is one turn of
    [MatchMaker.Run].  Any list of steps is a schedule. *)
Inductive Step : Type :=
| Registers (c : Client)
| Greets (c : Client)
| Enqueues (c : Client)
| Receives (c : Client) (msg : Message)
| Leaves (c : Client) (unexpected : bool)
| Unregisters (c : Client)
| Dequeues (c : Client)
| Closes (c : Client)
| LoopTurn.

Definition step (w : World) (s : Step) : World :=
  match s with
  | Registers c =>
      slog Info "Client connected (Authenticated)" [("client_id", ID c)]
        (set_clients (insert (ID c) c) w)
  | Greets c => (WriteJSON c (init_msg (ID c)) w).2
  | Enqueues c => MatchMaker.Add c w
  | Receives c msg => handleMessage (set_From (ID c) msg) w
  | Leaves c unexpected => read_failed (ID c) unexpected w
  | Unregisters c => set_clients (delete (ID c)) w
  | Dequeues c =>
      slog Info "Client fully disconnected" [("client_id", ID c)]
        (MatchMaker.Remove c w)
  | Closes c => set_dead (Conn c :: dead w) w
  | LoopTurn => MatchMaker.Run_iter w
  end.

Definition run (steps : list Step) (w : World) : World := foldl step w steps.


(** The connection whose handler makes the step, if it is a handler's. *)
Definition owner (s : Step) : option Client :=
  match s with
  | Registers c | Greets c | Enqueues c | Receives c _ | Leaves c _
  | Unregisters c | Dequeues c | Closes c => Some c
  | LoopTurn => None
  end.




(** A loop turn, or a read of the handler of [c]. *)
Definition turn_or_read (c : Client) (s : Step) : Prop :=
  s = LoopTurn ∨ ∃ msg, s = Receives c msg.



(** ** Arrival times *)




(** ** Decoding a frame *)



Section Decode.

(** The decimal text [json.Marshal] writes for the [float64] that
    [json.Unmarshal] reads from a number literal. *)
Variable float64_text : string → string.



End Decode.




(** ** The channel-based matcher on a schedule *)

Module PendingRun.

(** Between the turns of [matchingLoop] handlers register and leave. *)
Inductive Event : Type :=
| Delivers (c : Client)
| Connects (c : Client)
| Disconnects (c : Client).

Definition event (st : option Client * World) (e : Event) : option Client * World :=
  match e with
  | Delivers c => Pending.matchingLoop_iter c st
  | Connects c => (st.1, Earlier.connect c st.2)
  | Disconnects c => (st.1, Earlier.disconnect c st.2)
  end.

Definition run (events : list Event) (w : World) : option Client * World :=
  foldl event (None, w) events.

End PendingRun.

(** * Properties *)

(** ** Facts about the queue scan *)

Lemma index_of_None id q i :
  MatchMaker.index_of id q i = None ↔ Forall (λ x, ID x ≠ id) q.
Proof.
  revert i. induction q as [|x q IH]; intros i; simpl.
  - split; [constructor | done].
  - destruct (String.eqb_spec (ID x) id) as [E|E].
    + split; [done | inversion 1; done].
    + rewrite IH. split; [by constructor | by inversion 1].
Qed.

Lemma index_of_Some id q i n :
  MatchMaker.index_of id q i = Some n →
  ∃ l1 x l2, q = l1 ++ x :: l2 ∧ Forall (λ y, ID y ≠ id) l1 ∧ ID x = id
             ∧ n = (i + length l1)%nat.
Proof.
  revert i. induction q as [|x q IH]; intros i; simpl; [done|].
  destruct (String.eqb_spec (ID x) id) as [E|E].
  - intros [= <-]. exists [], x, q. simpl. repeat split; [constructor | done | lia].
  - intros H. destruct (IH _ H) as (l1 & y & l2 & -> & Hl1 & Hy & ->).
    exists (x :: l1), y, l2. simpl. repeat split; [by constructor | done | lia].
Qed.

Lemma take_drop_middle_out {A} (l1 l2 : list A) x :
  take (length l1) (l1 ++ x :: l2) ++ drop (S (length l1)) (l1 ++ x :: l2) = l1 ++ l2.
Proof.
  rewrite take_app_length.
  replace (S (length l1)) with (length (l1 ++ [x])) by (rewrite length_app; simpl; lia).
  replace (l1 ++ x :: l2) with ((l1 ++ [x]) ++ l2) at 1 by (by rewrite <- app_assoc).
  by rewrite drop_app_length.
Qed.

Lemma Remove_cases (c : Client) (w : World) :
  (Forall (λ x, ID x ≠ ID c) (queue w) ∧ MatchMaker.Remove c w = w)
  ∨ (∃ l1 x l2,
        queue w = l1 ++ x :: l2
        ∧ Forall (λ y, ID y ≠ ID c) l1
        ∧ ID x = ID c
        ∧ queue (MatchMaker.Remove c w) = l1 ++ l2).
Proof.
  unfold MatchMaker.Remove.
  destruct (MatchMaker.index_of (ID c) (queue w) 0) as [n|] eqn:E.
  - right. apply index_of_Some in E as (l1 & x & l2 & Hq & Hl1 & Hx & ->).
    exists l1, x, l2. simpl. by rewrite Hq, take_drop_middle_out.
  - left. by apply index_of_None in E.
Qed.

Lemma Remove_frame (c : Client) (w : World) :
  clients (MatchMaker.Remove c w) = clients w
  ∧ notify (MatchMaker.Remove c w) = notify w
  ∧ dead (MatchMaker.Remove c w) = dead w
  ∧ wire (MatchMaker.Remove c w) = wire w.
Proof.
  unfold MatchMaker.Remove.
  by destruct (MatchMaker.index_of (ID c) (queue w) 0).
Qed.

(** ** Removal from the pool *)

(** C10.  [MatchMaker.Remove] either finds no entry with the given client's
    identity and leaves the pool (and everything else) as it is, or it
    deletes exactly one entry, the oldest with that identity: the entries
    before it, none of which has that identity, and all entries after it,
    whatever their identity, stay in place and in order. *)
Theorem Remove_deletes_oldest_match (c : Client) (w : World) :
  (Forall (λ x, ID x ≠ ID c) (queue w) ∧ MatchMaker.Remove c w = w)
  ∨ (∃ l1 x l2,
        queue w = l1 ++ x :: l2
        ∧ Forall (λ y, ID y ≠ ID c) l1
        ∧ ID x = ID c
        ∧ queue (MatchMaker.Remove c w) = l1 ++ l2
        ∧ length (queue (MatchMaker.Remove c w)) + 1 = length (queue w)).
Proof.
  destruct (Remove_cases c w) as [H|(l1 & x & l2 & Hq & Hl1 & Hx & Hr)]; [by left|].
  right. exists l1, x, l2. repeat split; try done.
  rewrite Hr, Hq, !length_app. simpl. lia.
Qed.

(** ** Teardown *)

Lemma teardown_is_keyed_by_identity_aux (c : Client) (w : World) :
  clients (teardown c w) !! ID c = None
  ∧ (∀ id, id ≠ ID c → clients (teardown c w) !! id = clients w !! id).
Proof.
  unfold teardown. cbn [clients set_dead slog].
  destruct (Remove_frame c (set_clients (delete (ID c)) w)) as (Hc & _).
  rewrite Hc. cbn [clients set_clients].
  split; [apply lookup_delete_eq|].
  intros id Hid. by apply lookup_delete_ne.
Qed.

(** C3, as the code has it.  The deferred cleanup deletes the registry entry
    of the client's identity, whichever client is stored there, leaves every
    other identity's entry alone, and takes the oldest entry with that
    identity, if there is one, out of the pool. *)
Theorem teardown_is_keyed_by_identity (c : Client) (w : World) :
  clients (teardown c w) !! ID c = None
  ∧ (∀ id, id ≠ ID c → clients (teardown c w) !! id = clients w !! id)
  ∧ ((Forall (λ x, ID x ≠ ID c) (queue w) ∧ queue (teardown c w) = queue w)
     ∨ (∃ l1 x l2,
           queue w = l1 ++ x :: l2
           ∧ Forall (λ y, ID y ≠ ID c) l1
           ∧ ID x = ID c
           ∧ queue (teardown c w) = l1 ++ l2)).
Proof.
  unfold teardown. cbn [clients queue set_dead slog].
  destruct (Remove_frame c (set_clients (delete (ID c)) w)) as (Hc & _).
  rewrite Hc. cbn [clients set_clients].
  split; [apply lookup_delete_eq|].
  split; [intros id Hid; by apply lookup_delete_ne|].
  destruct (Remove_cases c (set_clients (delete (ID c)) w))
    as [[Hall Heq]|(l1 & x & l2 & Hq & Hl1 & Hx & Hr)].
  - left. split; [done|]. by rewrite Heq.
  - right. by exists l1, x, l2.
Qed.

(** C3, as stated, fails.  The same identity connects twice; the registry
    then holds the newer client.  The teardown of the older connection
    deletes that entry all the same. *)
Lemma stale_teardown_deletes_newer_entry :
  let older := mkClient "a" 1 in
  let newer := mkClient "a" 2 in
  let w := establish newer (establish older initial) in
  clients w !! "a" = Some newer
  ∧ newer ≠ older
  ∧ clients (teardown older w) !! "a" = None.
Proof. vm_compute. repeat split; [discriminate]. Qed.

(** ** Routing *)

Lemma eqb_empty_false (s : string) : s ≠ "" → String.eqb s "" = false.
Proof. intros H. by apply String.eqb_neq. Qed.

Lemma handleMessage_unroutable (msg : Message) (w : World) :
  To msg = "" ∨ clients w !! To msg = None → handleMessage msg w = w.
Proof.
  unfold handleMessage. intros [H|H].
  - by rewrite H.
  - rewrite H. by destruct (String.eqb (To msg) "").
Qed.

Lemma handleMessage_routed (msg : Message) (w : World) (target : Client) :
  To msg ≠ "" → clients w !! To msg = Some target →
  handleMessage msg w =
    log_if (is_dead (Conn target) w) "Failed to send message" [("to", To msg)]
      (snd (WriteJSON target msg w)).
Proof.
  intros H1 H2. unfold handleMessage. by rewrite (eqb_empty_false _ H1), H2.
Qed.

(** C7.  A message whose [to] is empty or not in the registry leaves the
    whole world as it was: nothing is written to any connection, the sender's
    included, and the read loop goes on as if the message had not come.  When
    the destination is registered and the write to it fails, the only effects
    are the record of the failed write and one error log line; no other
    connection is written to. *)
Theorem route_drops_silently (msg : Message) (w : World) :
  (To msg = "" ∨ clients w !! To msg = None → handleMessage msg w = w)
  ∧ (∀ clientID deadline t rest,
        To msg = "" ∨ clients w !! To msg = None → (t <=? deadline)%Z = true →
        read_loop clientID deadline (Data t (ReadOk msg) :: rest) w
        = read_loop clientID deadline rest w)
  ∧ (∀ target,
        To msg ≠ "" → clients w !! To msg = Some target →
        is_dead (Conn target) w = true →
        handleMessage msg w =
          mkWorld (clients w) (queue w) (notify w) (dead w)
            (wire w ++ [mkWritten (Conn target) msg false])
            (logs w ++ [mkLog Error "Failed to send message" [("to", To msg)]])).
Proof.
  split; [apply handleMessage_unroutable|]. split.
  - intros clientID deadline t rest H Ht. cbn [read_loop]. rewrite Ht.
    by rewrite handleMessage_unroutable.
  - intros target H1 H2 Hd. rewrite (handleMessage_routed _ _ _ H1 H2).
    unfold WriteJSON. by rewrite Hd.
Qed.

Lemma route_drops_silently_example :
  let b := mkClient "b" 2 in
  let w := set_dead [2] (establish b initial) in
  handleMessage (mkMessage "offer" JNull "nobody" "a") w = w
  ∧ handleMessage (mkMessage "offer" JNull "b" "a") w
    = mkWorld (clients w) (queue w) (notify w) (dead w)
        (wire w ++ [mkWritten 2 (mkMessage "offer" JNull "b" "a") false])
        (logs w ++ [mkLog Error "Failed to send message" [("to", "b")]]).
Proof.
  split.
  - apply (proj1 (route_drops_silently (mkMessage "offer" JNull "nobody" "a")
                    (set_dead [2] (establish (mkClient "b" 2) initial)))).
    right. vm_compute. reflexivity.
  - apply (proj2 (proj2 (route_drops_silently (mkMessage "offer" JNull "b" "a")
                           (set_dead [2] (establish (mkClient "b" 2) initial))))
             (mkClient "b" 2)).
    + discriminate.
    + vm_compute. reflexivity.
    + vm_compute. reflexivity.
Defined.

(** ** Authentication *)

Lemma bearer_token_query (r : Request) :
  query_token r ≠ "" → bearer_token r = query_token r.
Proof. intros H. unfold bearer_token. by rewrite (eqb_empty_false _ H). Qed.

Lemma bearer_token_missing (r : Request) :
  query_token r = "" → HasPrefix (Authorization r) "Bearer " = false →
  bearer_token r = "".
Proof. intros Hq Hh. unfold bearer_token. by rewrite Hq, Hh. Qed.

(** C8.  The token is the query parameter whenever that is not empty,
    whatever the [Authorization] header says; with neither a query token nor a
    bearer header there is no token.  With no token, a token the verifier
    refuses, or a verified token whose subject is empty, the handler answers
    with status 401 and returns: the outcome of the upgrade is never consulted
    and the registry, the pool, the wake flag and all connections are as
    before (only log lines are added). *)
Theorem unauthenticated_is_rejected (Validate : string → option string)
    (r : Request) (upgrade : option nat) (now : Z) (ins : list Inbound) (w : World) :
  (query_token r ≠ "" → bearer_token r = query_token r)
  ∧ (query_token r = "" → HasPrefix (Authorization r) "Bearer " = false →
     bearer_token r = "")
  ∧ (bearer_token r = "" ∨ Validate (bearer_token r) = None
       ∨ Validate (bearer_token r) = Some "" →
     ∃ body w',
       handleConnections Validate r upgrade now ins w
         = (Rejected StatusUnauthorized body, w')
       ∧ handleConnections Validate r None now [] w
         = (Rejected StatusUnauthorized body, w')
       ∧ clients w' = clients w ∧ queue w' = queue w ∧ notify w' = notify w
       ∧ dead w' = dead w ∧ wire w' = wire w).
Proof.
  split; [apply bearer_token_query|]. split; [apply bearer_token_missing|].
  unfold handleConnections.
  destruct (String.eqb_spec (bearer_token r) "") as [E|E].
  { intros _. by eexists _, _. }
  intros [H|[H|H]]; [done | |]; rewrite H; by eexists _, _.
Qed.

Lemma unauthenticated_is_rejected_example :
  let Validate := λ token : string,
    if String.eqb token "good" then Some "alice"
    else if String.eqb token "nosub" then Some "" else None in
  let r := mkRequest "nosub" "Bearer good" "peer" in
  bearer_token r = "nosub"
  ∧ ∃ body w',
      handleConnections Validate r (Some 1) 0 [] initial
        = (Rejected StatusUnauthorized body, w')
      ∧ handleConnections Validate r None 0 [] initial
        = (Rejected StatusUnauthorized body, w')
      ∧ clients w' = clients initial ∧ queue w' = queue initial
      ∧ notify w' = notify initial ∧ dead w' = dead initial
      ∧ wire w' = wire initial.
Proof.
  split.
  - apply (proj1 (unauthenticated_is_rejected (λ _, None)
                    (mkRequest "nosub" "Bearer good" "peer") None 0 [] initial)).
    discriminate.
  - apply (proj2 (proj2 (unauthenticated_is_rejected
             (λ token : string,
                if String.eqb token "good" then Some "alice"
                else if String.eqb token "nosub" then Some "" else None)
             (mkRequest "nosub" "Bearer good" "peer") (Some 1) 0 [] initial))).
    right. right. vm_compute. reflexivity.
Defined.

(** ** The read loop *)

Lemma log_if_frame b t kv w :
  clients (log_if b t kv w) = clients w ∧ queue (log_if b t kv w) = queue w
  ∧ notify (log_if b t kv w) = notify w ∧ dead (log_if b t kv w) = dead w
  ∧ wire (log_if b t kv w) = wire w.
Proof. by destruct b. Qed.

Lemma handleMessage_frame (msg : Message) (w : World) :
  clients (handleMessage msg w) = clients w
  ∧ queue (handleMessage msg w) = queue w
  ∧ notify (handleMessage msg w) = notify w
  ∧ dead (handleMessage msg w) = dead w.
Proof.
  unfold handleMessage.
  destruct (String.eqb (To msg) ""); [done|].
  destruct (clients w !! To msg) as [target|]; [|done].
  unfold WriteJSON. by destruct (is_dead (Conn target) w).
Qed.


Lemma read_failed_frame clientID u w :
  clients (read_failed clientID u w) = clients w
  ∧ queue (read_failed clientID u w) = queue w
  ∧ notify (read_failed clientID u w) = notify w
  ∧ dead (read_failed clientID u w) = dead w
  ∧ wire (read_failed clientID u w) = wire w.
Proof. by destruct u. Qed.

Lemma establish_frame (client : Client) (w : World) :
  clients (establish client w) = <[ID client := client]> (clients w)
  ∧ queue (establish client w) = queue w ++ [client]
  ∧ notify (establish client w) = true
  ∧ dead (establish client w) = dead w
  ∧ wire (establish client w)
    = wire w ++ [mkWritten (Conn client) (init_msg (ID client))
                   (negb (is_dead (Conn client) w))].
Proof. done. Qed.

Lemma teardown_wire (client : Client) (w : World) :
  wire (teardown client w) = wire w.
Proof.
  unfold teardown. cbn [wire set_dead slog].
  by destruct (Remove_frame client (set_clients (delete (ID client)) w)) as (_ & _ & _ & ->).
Qed.

(** C4, as the code has it.  The read loop hands every decoded message to the
    router, whatever its [type]: there is no case for [bye].  So a message
    whose [to] is registered, a [bye] as much as any other, is written to the
    destination's connection with [from] stamped. *)
Theorem every_type_is_routed (clientID : string) (deadline t : Z) (msg : Message)
    (rest : list Inbound) (w : World) (target : Client) :
  (t <=? deadline)%Z = true → To msg ≠ "" → clients w !! To msg = Some target →
  read_loop clientID deadline (Data t (ReadOk msg) :: rest) w
  = read_loop clientID deadline rest (handleMessage (set_From clientID msg) w)
  ∧ wire (handleMessage (set_From clientID msg) w)
    = wire w ++ [mkWritten (Conn target)
                   (mkMessage (Type_ msg) (Payload msg) (To msg) clientID)
                   (negb (is_dead (Conn target) w))].
Proof.
  intros Ht Hto Hreg. split.
  - cbn [read_loop]. by rewrite Ht.
  - rewrite (handleMessage_routed (set_From clientID msg) w target Hto Hreg).
    by destruct (log_if_frame (is_dead (Conn target) w) "Failed to send message"
                   [("to", To (set_From clientID msg))]
                   (WriteJSON target (set_From clientID msg) w).2) as (_ & _ & _ & _ & ->).
Qed.

Lemma every_type_is_routed_bye :
  let b := mkClient "b" 2 in
  let w := establish b initial in
  let bye := mkMessage "bye" (JObject []) "b" "" in
  read_loop "a" pongWait [Data 5 (ReadOk bye)] w
  = read_loop "a" pongWait [] (handleMessage (set_From "a" bye) w)
  ∧ wire (handleMessage (set_From "a" bye) w)
    = wire w ++ [mkWritten 2 (mkMessage "bye" (JObject []) "b" "a")
                   (negb (is_dead 2 w))].
Proof.
  apply (every_type_is_routed "a" pongWait 5
           (mkMessage "bye" (JObject []) "b" "") [] (establish (mkClient "b" 2) initial)
           (mkClient "b" 2)).
  - reflexivity.
  - discriminate.
  - vm_compute. reflexivity.
Defined.

(** C4, as stated, fails.  Client [a] sends a [bye] addressed to the
    registered client [b]; the router writes it to the connection of [b]. *)
Lemma bye_is_forwarded :
  let a := mkClient "a" 1 in
  let b := mkClient "b" 2 in
  let w := establish b (establish a initial) in
  let bye := mkMessage "bye" (JObject []) "b" "" in
  wire (read_loop "a" pongWait [Data 5 (ReadOk bye)] w).2
  = wire w ++ [mkWritten 2 (mkMessage "bye" (JObject []) "b" "a") true].
Proof. vm_compute. reflexivity. Qed.

(** ** Pairing *)

Lemma set_notify_same (w : World) : notify w = false → set_notify false w = w.
Proof. destruct w; simpl; by intros ->. Qed.

Lemma Run_iter_blocked (w : World) : notify w = false → MatchMaker.Run_iter w = w.
Proof. unfold MatchMaker.Run_iter. by intros ->. Qed.

Lemma Run_iter_small (w : World) :
  length (queue w) < 2 → MatchMaker.Run_iter w = set_notify false w.
Proof.
  intros Hlen. unfold MatchMaker.Run_iter.
  destruct (notify w) eqn:N; [|by rewrite set_notify_same].
  cbn [queue set_notify].
  destruct (queue w) as [|c1 [|c2 rest]]; [done | done | simpl in Hlen; lia].
Qed.

Lemma Run_iter_pair (w : World) (c1 c2 : Client) (rest : list Client) :
  notify w = true → queue w = c1 :: c2 :: rest →
  MatchMaker.Run_iter w =
    mkWorld (clients w) rest (bool_decide (2 ≤ length rest)) (dead w)
      (wire w ++ [mkWritten (Conn c1) (MatchMaker.match_msg (ID c2))
                    (negb (is_dead (Conn c1) w));
                  mkWritten (Conn c2) (MatchMaker.match_msg (ID c1))
                    (negb (is_dead (Conn c2) w))])
      (logs w ++ mkLog Info "Matching clients" [("client1", ID c1); ("client2", ID c2)]
              :: match_failures w c1 c2).
Proof.
  intros N Q. unfold MatchMaker.Run_iter, match_failures. rewrite N.
  cbn [queue set_notify]. rewrite Q.
  unfold WriteJSON, is_dead, log_if, MatchMaker.post, slog, set_queue, set_notify.
  cbn -[bool_decide].
  destruct (bool_decide (Conn c1 ∈ dead w)), (bool_decide (Conn c2 ∈ dead w));
    cbn -[bool_decide]; destruct (bool_decide (2 ≤ length rest));
    cbn; rewrite <- ?app_assoc; reflexivity.
Qed.

Lemma pairings_match_failures (w : World) (c1 c2 : Client) :
  omap pairing_of (match_failures w c1 c2) = [].
Proof.
  unfold match_failures.
  by destruct (is_dead (Conn c1) w), (is_dead (Conn c2) w).
Qed.

Lemma Run_small (n : nat) (w : World) :
  length (queue w) < 2 →
  MatchMaker.Run n w = w ∨ MatchMaker.Run n w = set_notify false w.
Proof.
  intros Hlen. destruct n as [|n]; [by left|]. right.
  cbn [MatchMaker.Run]. rewrite (Run_iter_small w Hlen).
  induction n as [|n IH]; [done|].
  cbn [MatchMaker.Run]. by rewrite Run_iter_blocked.
Qed.

Lemma Add_after_Run_small (c : Client) (n : nat) (w : World) :
  length (queue w) < 2 → MatchMaker.Add c (MatchMaker.Run n w) = MatchMaker.Add c w.
Proof. intros Hlen. by destruct (Run_small n w Hlen) as [-> | ->]. Qed.

(** C5.  From an empty pool, add [c1], then [c2], with the pairing loop
    taking any number of turns before, between and (at least one) after:
    the loop ends idle with the pool empty, and what was written is exactly
    one [match] to [c1] carrying the identity of [c2] followed by one [match]
    to [c2] carrying the identity of [c1]; one pairing is announced.  (The
    flag of each write tells whether that connection took it.) *)
Theorem two_clients_are_paired_once (c1 c2 : Client) (n1 n2 n3 : nat) (w : World) :
  queue w = [] →
  let w' := MatchMaker.Run (S n3)
              (MatchMaker.Add c2 (MatchMaker.Run n2
                 (MatchMaker.Add c1 (MatchMaker.Run n1 w)))) in
  queue w' = [] ∧ notify w' = false
  ∧ wire w' = wire w ++ [mkWritten (Conn c1) (mkMessage "match" (JString (ID c2)) "" "")
                           (negb (is_dead (Conn c1) w));
                         mkWritten (Conn c2) (mkMessage "match" (JString (ID c1)) "" "")
                           (negb (is_dead (Conn c2) w))]
  ∧ pairings w' = pairings w ++ [(ID c1, ID c2)]
  ∧ clients w' = clients w.
Proof.
  intros Q. cbv zeta.
  rewrite (Add_after_Run_small c1 n1 w) by (rewrite Q; simpl; lia).
  rewrite (Add_after_Run_small c2 n2 (MatchMaker.Add c1 w)) by (simpl; rewrite Q; simpl; lia).
  cbn [MatchMaker.Run].
  rewrite (Run_iter_pair _ c1 c2 []); [| done | by simpl; rewrite Q].
  match goal with |- context [MatchMaker.Run n3 ?W] => set (W' := W) end.
  assert (HW : MatchMaker.Run n3 W' = W').
  { destruct (Run_small n3 W') as [-> | ->]; [simpl; lia | done | done]. }
  rewrite HW. unfold W', pairings. cbn.
  repeat split; try done.
  rewrite <- !app_assoc. cbn. rewrite !omap_app. cbn.
  by rewrite pairings_match_failures.
Qed.

Lemma two_clients_are_paired_once_example :
  let c1 := mkClient "a" 1 in
  let c2 := mkClient "b" 2 in
  let w' := MatchMaker.Run 1
              (MatchMaker.Add c2 (MatchMaker.Run 1
                 (MatchMaker.Add c1 (MatchMaker.Run 0 initial)))) in
  queue w' = [] ∧ notify w' = false
  ∧ wire w' = wire initial
              ++ [mkWritten 1 (mkMessage "match" (JString "b") "" "")
                    (negb (is_dead 1 initial));
                  mkWritten 2 (mkMessage "match" (JString "a") "" "")
                    (negb (is_dead 2 initial))]
  ∧ pairings w' = pairings initial ++ [("a", "b")]
  ∧ clients w' = clients initial.
Proof.
  apply (two_clients_are_paired_once (mkClient "a" 1) (mkClient "b" 2) 0 1 0 initial).
  reflexivity.
Defined.

(** ** Sequences of pool operations *)

Lemma waiting_false (id : string) (w : World) :
  waiting id w = false → id ∉ ID <$> queue w.
Proof.
  unfold waiting. intros H Hin.
  apply list_elem_of_fmap in Hin as (x & -> & Hx).
  apply not_true_iff_false in H. apply H.
  apply existsb_exists. exists x. split; [by apply list_elem_of_In|].
  apply String.eqb_refl.
Qed.

Lemma apart_Add (c : Client) (w : World) :
  waiting (ID c) w = false → apart w → apart (MatchMaker.Add c w).
Proof.
  intros Hnew [Hq Hp]. split.
  - cbn. rewrite fmap_app. apply NoDup_app. repeat split; [done | | apply NoDup_singleton].
    intros id Hin Hin'. apply list_elem_of_singleton in Hin' as ->.
    by apply (waiting_false _ _ Hnew).
  - unfold pairings. cbn. rewrite omap_app. cbn. by rewrite app_nil_r.
Qed.

Lemma pairings_Remove (c : Client) (w : World) :
  pairings (MatchMaker.Remove c w) = pairings w.
Proof.
  unfold MatchMaker.Remove, pairings.
  destruct (MatchMaker.index_of (ID c) (queue w) 0); [|done].
  cbn. rewrite omap_app. cbn. by rewrite app_nil_r.
Qed.

Lemma apart_Remove (c : Client) (w : World) :
  apart w → apart (MatchMaker.Remove c w).
Proof.
  intros [Hq Hp]. split; [|by rewrite pairings_Remove].
  destruct (Remove_cases c w) as [[_ ->]|(l1 & x & l2 & Hw & _ & _ & ->)]; [done|].
  rewrite Hw in Hq. rewrite fmap_app in *. rewrite fmap_cons in Hq.
  apply NoDup_app in Hq as (H1 & H2 & H3). apply NoDup_cons in H3 as [_ H3].
  apply NoDup_app. repeat split; [done | | done].
  intros id Hin Hin'. apply (H2 id Hin). apply elem_of_cons. by right.
Qed.

Lemma apart_Run_iter (w : World) : apart w → apart (MatchMaker.Run_iter w).
Proof.
  intros [Hq Hp].
  destruct (notify w) eqn:N; [|by rewrite Run_iter_blocked].
  destruct (queue w) as [|c1 [|c2 rest]] eqn:Q.
  - rewrite Run_iter_small by (rewrite Q; simpl; lia). split; cbn; by rewrite ?Q.
  - rewrite Run_iter_small by (rewrite Q; simpl; lia). split; cbn; by rewrite ?Q.
  - rewrite (Run_iter_pair w c1 c2 rest N Q).
    rewrite !fmap_cons in Hq.
    apply NoDup_cons in Hq as [Hne Hq]. apply NoDup_cons in Hq as [_ Hq].
    split; [done|]. unfold pairings. cbn [logs].
    rewrite omap_app. cbn. rewrite pairings_match_failures.
    apply Forall_app. split; [done|]. repeat constructor. cbn.
    intros E. apply Hne. rewrite E. apply elem_of_cons. by left.
Qed.

Section Invariant.

Variable ok : Client → World → bool.
Variable P : World → Prop.
Hypothesis P_Add : ∀ c w, ok c w = true → P w → P (MatchMaker.Add c w).
Hypothesis P_Remove : ∀ c w, P w → P (MatchMaker.Remove c w).
Hypothesis P_Run_iter : ∀ w, P w → P (MatchMaker.Run_iter w).

Lemma invariant_run_ops (ops : list PoolOp) :
  ∀ w, P w → adds_satisfy ok ops w = true → P (run_ops ops w).
Proof.
  induction ops as [|op ops IH]; intros w Hw Hok; [done|].
  cbn [adds_satisfy] in Hok. apply andb_true_iff in Hok as [Hop Hok].
  cbn [run_ops foldl]. apply IH; [|done].
  destruct op as [c|c|]; cbn [apply_op]; auto.
Qed.

Lemma adds_satisfy_prefix (ops later : list PoolOp) :
  ∀ w, adds_satisfy ok (ops ++ later) w = true → adds_satisfy ok ops w = true.
Proof.
  induction ops as [|op ops IH]; intros w H; [done|].
  cbn [adds_satisfy app] in *. apply andb_true_iff in H as [H1 H2].
  apply andb_true_iff. split; [done | by apply IH].
Qed.

End Invariant.

Lemma NoDup_Add (c : Client) (w : World) :
  negb (bool_decide (c ∈ queue w)) = true →
  NoDup (queue w) → NoDup (queue (MatchMaker.Add c w)).
Proof.
  intros Hc Hq. apply negb_true_iff, bool_decide_eq_false in Hc.
  cbn. apply NoDup_app. repeat split; [done | | apply NoDup_singleton].
  intros x Hin Hin'. by apply list_elem_of_singleton in Hin' as ->.
Qed.

Lemma NoDup_Remove (c : Client) (w : World) :
  NoDup (queue w) → NoDup (queue (MatchMaker.Remove c w)).
Proof.
  intros Hq.
  destruct (Remove_cases c w) as [[_ ->]|(l1 & x & l2 & Hw & _ & _ & ->)]; [done|].
  rewrite Hw in Hq.
  apply NoDup_app in Hq as (H1 & H2 & H3). apply NoDup_cons in H3 as [_ H3].
  apply NoDup_app. repeat split; [done | | done].
  intros y Hin Hin'. apply (H2 y Hin). apply elem_of_cons. by right.
Qed.

Lemma NoDup_Run_iter (w : World) :
  NoDup (queue w) → NoDup (queue (MatchMaker.Run_iter w)).
Proof.
  intros Hq.
  destruct (notify w) eqn:N; [|by rewrite Run_iter_blocked].
  destruct (queue w) as [|c1 [|c2 rest]] eqn:Q.
  - rewrite Run_iter_small by (rewrite Q; simpl; lia). cbn. by rewrite Q.
  - rewrite Run_iter_small by (rewrite Q; simpl; lia). cbn. by rewrite Q.
  - rewrite (Run_iter_pair w c1 c2 rest N Q). cbn.
    apply NoDup_cons in Hq as [_ Hq]. by apply NoDup_cons in Hq as [_ Hq].
Qed.

(** C1, as the code has it.  [Add] appends without looking at the pool.  Take
    any sequence of [Add], [Remove] and pairing turns from the empty pool, and
    any point of it.  When every [Add] brings a client that is not itself in
    the pool, no client holds two pool slots.  When every [Add] brings an
    identity that is not waiting, no identity holds two pool slots and every
    pairing announced so far is between two different identities. *)
Theorem new_identities_stay_apart (ops later : list PoolOp) :
  (adds_are_fresh (ops ++ later) initial = true →
   NoDup (queue (run_ops ops initial)))
  ∧ (adds_are_new (ops ++ later) initial = true →
     NoDup (ID <$> queue (run_ops ops initial))
     ∧ Forall (λ p : string * string, p.1 ≠ p.2) (pairings (run_ops ops initial))).
Proof.
  split; intros H; apply adds_satisfy_prefix in H.
  - apply (invariant_run_ops _ (λ w, NoDup (queue w))
             NoDup_Add NoDup_Remove NoDup_Run_iter ops initial); [|done].
    apply NoDup_nil_2.
  - apply (invariant_run_ops _ apart
             (λ c w Hc, apart_Add c w (proj1 (negb_true_iff _) Hc))
             apart_Remove apart_Run_iter ops initial); [|done].
    split; [apply NoDup_nil_2 | constructor].
Qed.

Lemma new_identities_stay_apart_example :
  let a := mkClient "a" 1 in
  let b := mkClient "b" 2 in
  let c := mkClient "c" 3 in
  let ops := [OpAdd a; OpAdd b; OpAdd c; OpRemove b; OpRun; OpAdd b] in
  NoDup (queue (run_ops ops initial))
  ∧ NoDup (ID <$> queue (run_ops ops initial))
  ∧ Forall (λ p : string * string, p.1 ≠ p.2) (pairings (run_ops ops initial)).
Proof.
  split.
  - apply (proj1 (new_identities_stay_apart
             [OpAdd (mkClient "a" 1); OpAdd (mkClient "b" 2); OpAdd (mkClient "c" 3);
              OpRemove (mkClient "b" 2); OpRun; OpAdd (mkClient "b" 2)] [OpRun])).
    vm_compute. reflexivity.
  - apply (proj2 (new_identities_stay_apart
             [OpAdd (mkClient "a" 1); OpAdd (mkClient "b" 2); OpAdd (mkClient "c" 3);
              OpRemove (mkClient "b" 2); OpRun; OpAdd (mkClient "b" 2)] [OpRun])).
    vm_compute. reflexivity.
Defined.

(** C1, as stated, fails.  Two connections of the same identity are added
    and the loop pairs them with each other; and adding one client twice
    puts it in two slots. *)
Lemma same_identity_is_paired :
  let a1 := mkClient "a" 1 in
  let a2 := mkClient "a" 2 in
  pairings (run_ops [OpAdd a1; OpAdd a2; OpRun] initial) = [("a", "a")]
  ∧ wire (run_ops [OpAdd a1; OpAdd a2; OpRun] initial)
    = [mkWritten 1 (mkMessage "match" (JString "a") "" "") true;
       mkWritten 2 (mkMessage "match" (JString "a") "" "") true]
  ∧ queue (run_ops [OpAdd a1; OpAdd a1] initial) = [a1; a1].
Proof. vm_compute. repeat split. Qed.

(** ** The two match notifications *)

(** C6, as the code has it.  [MatchMaker.Run] writes to both clients of a
    pairing whatever becomes of either write.  The channel-based
    [matchingLoop] writes to the pending client first; if that write fails it
    does not write to the new client at all and keeps it as the pending one;
    if it succeeds, the second write is made and the pending slot is cleared
    whatever becomes of the second write. *)
Theorem match_writes_per_strategy :
  (∀ w c1 c2 rest,
      notify w = true → queue w = c1 :: c2 :: rest →
      wire (MatchMaker.Run_iter w)
      = wire w ++ [mkWritten (Conn c1) (MatchMaker.match_msg (ID c2))
                     (negb (is_dead (Conn c1) w));
                   mkWritten (Conn c2) (MatchMaker.match_msg (ID c1))
                     (negb (is_dead (Conn c2) w))])
  ∧ (∀ w p client,
        Pending.isClientActive client w = true →
        Pending.isClientActive p w = true →
        ID p ≠ ID client →
        wire (Pending.matchingLoop_iter client (Some p, w)).2
        = wire w
            ++ mkWritten (Conn p) (MatchMaker.match_msg (ID client))
                 (negb (is_dead (Conn p) w))
            :: (if is_dead (Conn p) w then []
                else [mkWritten (Conn client) (MatchMaker.match_msg (ID p))
                        (negb (is_dead (Conn client) w))])
        ∧ (Pending.matchingLoop_iter client (Some p, w)).1
          = if is_dead (Conn p) w then Some client else None).
Proof.
  split.
  - intros w c1 c2 rest N Q. by rewrite (Run_iter_pair w c1 c2 rest N Q).
  - intros w p client Hc Hp Hne.
    unfold Pending.matchingLoop_iter. rewrite Hc, Hp. cbn [negb].
    apply String.eqb_neq in Hne. rewrite Hne.
    unfold WriteJSON, is_dead, slog, log_if. cbn -[bool_decide].
    destruct (bool_decide (Conn p ∈ dead w)); cbn -[bool_decide]; [done|].
    destruct (bool_decide (Conn client ∈ dead w)); cbn;
      by rewrite <- app_assoc.
Qed.

Lemma match_writes_per_strategy_example :
  let p := mkClient "a" 1 in
  let client := mkClient "b" 2 in
  let w := mkWorld (<["b" := client]> (<["a" := p]> ∅)) [] false [2] [] [] in
  wire (Pending.matchingLoop_iter client (Some p, w)).2
  = wire w
      ++ mkWritten 1 (MatchMaker.match_msg "b") (negb (is_dead 1 w))
      :: (if is_dead 1 w then []
          else [mkWritten 2 (MatchMaker.match_msg "a") (negb (is_dead 2 w))])
  ∧ (Pending.matchingLoop_iter client (Some p, w)).1
    = if is_dead 1 w then Some client else None.
Proof.
  apply (proj2 match_writes_per_strategy
           (mkWorld (<["b" := mkClient "b" 2]> (<["a" := mkClient "a" 1]> ∅))
              [] false [2] [] [])
           (mkClient "a" 1) (mkClient "b" 2)).
  - vm_compute. reflexivity.
  - vm_compute. reflexivity.
  - discriminate.
Defined.

(** C6, as stated, fails for the channel-based loop.  Both clients are
    registered and the pending client's connection is broken: the only write
    made is the failed one to the pending client, and the new client, never
    written to, becomes the pending one. *)
Lemma failed_first_write_cancels_second :
  let p := mkClient "a" 1 in
  let client := mkClient "b" 2 in
  let w := mkWorld (<["b" := client]> (<["a" := p]> ∅)) [] false [1] [] [] in
  Pending.matchingLoop_iter client (Some p, w)
  = (Some client,
     mkWorld (clients w) [] false [1]
       [mkWritten 1 (mkMessage "match" (JString "b") "" "") false]
       [mkLog Info "Matching clients" [("client1", "a"); ("client2", "b")];
        mkLog Error "Failed to send match to pending client" [("client_id", "a")]]).
Proof. vm_compute. reflexivity. Qed.

(** ** Liveness *)

Lemma index_of_app (id : string) (l1 l2 : list Client) (x : Client) :
  ∀ i, Forall (λ y, ID y ≠ id) l1 → ID x = id →
       MatchMaker.index_of id (l1 ++ x :: l2) i = Some (i + length l1).
Proof.
  induction l1 as [|y l1 IH]; intros i Hl1 Hx; simpl.
  - rewrite <- Hx, String.eqb_refl. f_equal. lia.
  - apply Forall_cons in Hl1 as [Hy Hl1].
    apply String.eqb_neq in Hy. rewrite Hy, IH by done. f_equal. lia.
Qed.

Lemma Remove_first_own (c : Client) (w : World) (l1 l2 : list Client) :
  queue w = l1 ++ c :: l2 → Forall (λ y, ID y ≠ ID c) l1 →
  queue (MatchMaker.Remove c w) = l1 ++ l2.
Proof.
  intros Hq Hl1. unfold MatchMaker.Remove.
  rewrite Hq, (index_of_app (ID c) l1 l2 c 0 Hl1 eq_refl). cbn.
  apply take_drop_middle_out.
Qed.

(** * Further properties of the match maker *)

(** X1.  Adding a client whose identity is not waiting and then removing it
    gives back the pool as it was, with the registry and everything written
    untouched: a connection that comes and goes before it is paired leaves no
    trace in the pool. *)
Theorem Remove_undoes_Add (c : Client) (w : World) :
  Forall (λ x, ID x ≠ ID c) (queue w) →
  queue (MatchMaker.Remove c (MatchMaker.Add c w)) = queue w
  ∧ clients (MatchMaker.Remove c (MatchMaker.Add c w)) = clients w
  ∧ wire (MatchMaker.Remove c (MatchMaker.Add c w)) = wire w.
Proof.
  intros Hall.
  destruct (Remove_frame c (MatchMaker.Add c w)) as (-> & _ & _ & ->).
  repeat split.
  rewrite (Remove_first_own c (MatchMaker.Add c w) (queue w) []); [|done|done].
  by rewrite app_nil_r.
Qed.

Lemma Remove_undoes_Add_example :
  let a := mkClient "a" 1 in
  let b := mkClient "b" 2 in
  let w := MatchMaker.Add a initial in
  queue (MatchMaker.Remove b (MatchMaker.Add b w)) = queue w
  ∧ clients (MatchMaker.Remove b (MatchMaker.Add b w)) = clients w
  ∧ wire (MatchMaker.Remove b (MatchMaker.Add b w)) = wire w.
Proof.
  apply (Remove_undoes_Add (mkClient "b" 2) (MatchMaker.Add (mkClient "a" 1) initial)).
  repeat constructor. discriminate.
Defined.

Lemma of_identity_absent (id : string) (q : list Client) :
  Forall (λ x, ID x ≠ id) q → of_identity id q = [].
Proof.
  induction 1 as [|x q Hx _ IH]; [done|].
  unfold of_identity in *. cbn. apply String.eqb_neq in Hx. by rewrite Hx.
Qed.

(** X2.  Seen identity by identity, [Remove] does one thing: the waiting
    entries of the removed client's identity lose their oldest member, and
    the waiting entries of every other identity are exactly as before. *)
Theorem Remove_per_identity (c : Client) (w : World) (id : string) :
  of_identity id (queue (MatchMaker.Remove c w))
  = if String.eqb id (ID c) then tail (of_identity id (queue w))
    else of_identity id (queue w).
Proof.
  destruct (Remove_cases c w) as [[Hall ->]|(l1 & x & l2 & Hq & Hl1 & Hx & ->)].
  - destruct (String.eqb_spec id (ID c)) as [->|_]; [|done].
    by rewrite of_identity_absent.
  - rewrite Hq. unfold of_identity. rewrite !List.filter_app. cbn.
    destruct (String.eqb_spec id (ID c)) as [->|Hne].
    + fold (of_identity (ID c) l1). rewrite (of_identity_absent _ _ Hl1).
      rewrite Hx, String.eqb_refl. done.
    + assert (String.eqb (ID x) id = false) as ->; [|done].
      apply String.eqb_neq. congruence.
Qed.

Lemma adds_satisfy_any (ops : list PoolOp) :
  ∀ w, adds_satisfy (λ _ _, true) ops w = true.
Proof. induction ops as [|[c|c|] ops IH]; intros w; cbn; auto. Qed.

Lemma Remove_length (c : Client) (w : World) :
  length (queue (MatchMaker.Remove c w)) ≤ length (queue w).
Proof.
  destruct (Remove_cases c w) as [[_ ->]|(l1 & x & l2 & -> & _ & _ & ->)]; [done|].
  rewrite !length_app. simpl. lia.
Qed.

(** X3.  No wake is lost.  After any sequence of [Add], [Remove] and loop
    turns from the start, whenever two or more clients wait, a wake is
    buffered in [notify]: the loop is never left idle beside a pool it could
    pair. *)
Theorem wake_pending_while_two_wait (ops : list PoolOp) :
  2 ≤ length (queue (run_ops ops initial)) → notify (run_ops ops initial) = true.
Proof.
  apply (invariant_run_ops (λ _ _, true)
           (λ w, 2 ≤ length (queue w) → notify w = true)); [| | | |apply adds_satisfy_any].
  - done.
  - intros c w Hw Hlen. destruct (Remove_frame c w) as (_ & -> & _).
    apply Hw. pose proof (Remove_length c w). lia.
  - intros w Hw.
    destruct (notify w) eqn:N; [|by rewrite Run_iter_blocked, N].
    destruct (queue w) as [|c1 [|c2 rest]] eqn:Q.
    + rewrite Run_iter_small by (rewrite Q; simpl; lia). cbn. rewrite Q. simpl. lia.
    + rewrite Run_iter_small by (rewrite Q; simpl; lia). cbn. rewrite Q. simpl. lia.
    + rewrite (Run_iter_pair w c1 c2 rest N Q). cbn -[bool_decide].
      intros H. by apply bool_decide_eq_true.
  - simpl. lia.
Qed.

Lemma wake_pending_while_two_wait_example :
  let ops := [OpAdd (mkClient "a" 1); OpAdd (mkClient "b" 2); OpAdd (mkClient "c" 3);
              OpAdd (mkClient "d" 4); OpRun; OpAdd (mkClient "e" 5)] in
  notify (run_ops ops initial) = true.
Proof.
  apply (wake_pending_while_two_wait
           [OpAdd (mkClient "a" 1); OpAdd (mkClient "b" 2); OpAdd (mkClient "c" 3);
            OpAdd (mkClient "d" 4); OpRun; OpAdd (mkClient "e" 5)]).
  vm_compute. lia.
Defined.

Lemma pairs_ind (P : list Client → Prop) :
  P [] → (∀ c, P [c]) → (∀ c1 c2 rest, P rest → P (c1 :: c2 :: rest)) →
  ∀ q, P q.
Proof.
  intros H0 H1 H2.
  assert (H : ∀ q, P q ∧ ∀ c, P (c :: q)).
  { induction q as [|x q [IHa IHb]]; [by split|]. split; [apply IHb|].
    intros c. by apply H2. }
  intros q. apply H.
Qed.

Lemma Run_blocked (n : nat) (w : World) : notify w = false → MatchMaker.Run n w = w.
Proof.
  intros N. induction n as [|n IH]; [done|].
  cbn [MatchMaker.Run]. by rewrite Run_iter_blocked.
Qed.

Lemma Run_S_small (n : nat) (w : World) :
  length (queue w) < 2 → MatchMaker.Run (S n) w = set_notify false w.
Proof.
  intros Hlen. cbn [MatchMaker.Run]. rewrite (Run_iter_small w Hlen).
  by apply Run_blocked.
Qed.

Lemma pair_up_short (q : list Client) :
  length q < 2 → pair_up q = [] ∧ leftover q = q.
Proof. destruct q as [|c1 [|c2 rest]]; simpl; [done | done | lia]. Qed.

(** X4.  One buffered wake drains the pool.  From any world with a wake
    pending, as many loop turns as there are pairs to form, plus one (more do
    no harm), pair the waiting clients two by two in arrival order: each pair
    gets its two [match] writes, first to the older with the identity of the
    younger; an odd last client is left waiting; the loop ends idle; the
    registry is not touched. *)
Theorem one_wake_drains_the_pool (w : World) (extra : nat) :
  notify w = true →
  let w' := MatchMaker.Run (S (length (pair_up (queue w))) + extra) w in
  queue w' = leftover (queue w)
  ∧ length (queue w') < 2
  ∧ notify w' = false
  ∧ wire w' = wire w ++ concat (match_writes w <$> pair_up (queue w))
  ∧ pairings w' = pairings w ++ ((λ p, (ID p.1, ID p.2)) <$> pair_up (queue w))
  ∧ clients w' = clients w.
Proof.
  cbv zeta. remember (queue w) as q eqn:Q. revert w Q.
  induction q as [| c | c1 c2 rest IH] using pairs_ind; intros w Q N.
  - cbn [pair_up leftover length Nat.add].
    rewrite Run_S_small by (rewrite <- Q; simpl; lia).
    cbn. rewrite <- Q, !app_nil_r. repeat split; simpl; lia.
  - cbn [pair_up leftover length Nat.add].
    rewrite Run_S_small by (rewrite <- Q; simpl; lia).
    cbn. rewrite <- Q, !app_nil_r. repeat split; simpl; lia.
  - cbn [pair_up leftover length fmap list_fmap concat].
    change (S (S (length (pair_up rest))) + extra)
      with (S (S (length (pair_up rest)) + extra)).
    set (n := S (length (pair_up rest)) + extra) in *.
    cbn [MatchMaker.Run].
    rewrite (Run_iter_pair w c1 c2 rest N (eq_sym Q)).
    match goal with |- context [MatchMaker.Run _ ?W] => set (W' := W) end.
    assert (Hmw : match_writes W' <$> pair_up rest = match_writes w <$> pair_up rest)
      by reflexivity.
    assert (Hpair : pairings W' = pairings w ++ [(ID c1, ID c2)]).
    { unfold pairings, W'. cbn [logs]. rewrite omap_app. cbn.
      by rewrite pairings_match_failures. }
    destruct (decide (2 ≤ length rest)) as [Hlen|Hlen].
    + destruct (IH W' eq_refl) as (Hq & Hl & Hn & Hw & Hp & Hc).
      { unfold W'. cbn -[bool_decide]. by apply bool_decide_eq_true. }
      rewrite Hq, Hn, Hw, Hp, Hc, Hmw, Hpair.
      repeat split; [by rewrite <- Hq | | ].
      * unfold W'. cbn [wire]. unfold match_writes at 2. cbn [fst snd].
        by rewrite <- !app_assoc.
      * by rewrite <- app_assoc.
    + destruct (pair_up_short rest) as [-> ->]; [lia|].
      rewrite Run_blocked
        by (unfold W'; cbn -[bool_decide]; by apply bool_decide_eq_false).
      rewrite Hpair. unfold W'. cbn -[bool_decide].
      repeat split; [lia | by apply bool_decide_eq_false].
Qed.

Lemma one_wake_drains_the_pool_example :
  let a := mkClient "a" 1 in
  let b := mkClient "b" 2 in
  let c := mkClient "c" 3 in
  let w := MatchMaker.Add c (MatchMaker.Add b (MatchMaker.Add a initial)) in
  let w' := MatchMaker.Run (S (length (pair_up (queue w))) + 0) w in
  queue w' = leftover (queue w)
  ∧ length (queue w') < 2
  ∧ notify w' = false
  ∧ wire w' = wire w ++ concat (match_writes w <$> pair_up (queue w))
  ∧ pairings w' = pairings w ++ ((λ p, (ID p.1, ID p.2)) <$> pair_up (queue w))
  ∧ clients w' = clients w.
Proof.
  apply (one_wake_drains_the_pool
           (MatchMaker.Add (mkClient "c" 3)
              (MatchMaker.Add (mkClient "b" 2) (MatchMaker.Add (mkClient "a" 1) initial))) 0).
  reflexivity.
Defined.

Lemma tally_app {A : Type} (f : A → bool) (l1 l2 : list A) :
  tally f (l1 ++ l2) = tally f l1 + tally f l2.
Proof. unfold tally. by rewrite List.filter_app, length_app. Qed.

Lemma tally_cons {A : Type} (f : A → bool) (x : A) (l : list A) :
  tally f (x :: l) = (if f x then 1 else 0) + tally f l.
Proof. unfold tally. cbn. by destruct (f x). Qed.

Lemma tally_nil {A : Type} (f : A → bool) : tally f [] = 0.
Proof. done. Qed.

Lemma counts_step (k : nat) (op : PoolOp) (w : World) :
  let now := tally (on_conn k) (queue (apply_op w op))
             + tally (match_to k) (wire (apply_op w op)) in
  let before := tally (on_conn k) (queue w) + tally (match_to k) (wire w)
                + tally (on_conn k) (omap added [op]) in
  now ≤ before ∧ (is_remove op = false → now = before).
Proof.
  cbv zeta. destruct op as [c|c|]; cbn [apply_op is_remove].
  - change (queue (MatchMaker.Add c w)) with (queue w ++ [c]).
    change (wire (MatchMaker.Add c w)) with (wire w).
    change (omap added [OpAdd c]) with [c].
    rewrite tally_app. split; [|intros _]; lia.
  - split; [|done]. destruct (Remove_frame c w) as (_ & _ & _ & ->).
    destruct (Remove_cases c w) as [[_ ->]|(l1 & x & l2 & -> & _ & _ & ->)]; [lia|].
    rewrite !tally_app, tally_cons. lia.
  - change (omap added [OpRun]) with (@nil Client). rewrite tally_nil.
    destruct (notify w) eqn:N;
      [|rewrite Run_iter_blocked by done; split; [|intros _]; lia].
    destruct (queue w) as [|c1 [|c2 rest]] eqn:Q.
    + rewrite Run_iter_small by (rewrite Q; simpl; lia).
      cbn [queue wire set_notify]. rewrite Q. split; [|intros _]; lia.
    + rewrite Run_iter_small by (rewrite Q; simpl; lia).
      cbn [queue wire set_notify]. rewrite Q. split; [|intros _]; lia.
    + rewrite (Run_iter_pair w c1 c2 rest N Q). cbn [queue wire].
      rewrite tally_app, !tally_cons, tally_nil.
      unfold match_to, on_conn. cbn [wconn wmsg MatchMaker.match_msg Type_].
      rewrite String.eqb_refl, !andb_true_r.
      destruct (Conn c1 =? k), (Conn c2 =? k); split; try intros _; lia.
Qed.

Lemma counts_run_ops (k : nat) (ops : list PoolOp) :
  ∀ w,
    let now := tally (on_conn k) (queue (run_ops ops w))
               + tally (match_to k) (wire (run_ops ops w)) in
    let before := tally (on_conn k) (queue w) + tally (match_to k) (wire w)
                  + tally (on_conn k) (omap added ops) in
    now ≤ before ∧ (forallb (λ op, negb (is_remove op)) ops = true → now = before).
Proof.
  induction ops as [|op ops IH]; intros w; cbv zeta.
  - change (omap added []) with (@nil Client). rewrite tally_nil.
    cbn [run_ops foldl]. split; [|intros _]; lia.
  - cbn [run_ops foldl forallb].
    destruct (IH (apply_op w op)) as [Hle Heq].
    destruct (counts_step k op w) as [Hle1 Heq1].
    fold (run_ops ops (apply_op w op)) in *.
    assert (Hadd : tally (on_conn k) (omap added (op :: ops))
                   = tally (on_conn k) (omap added [op]) + tally (on_conn k) (omap added ops)).
    { change (op :: ops) with ([op] ++ ops). by rewrite omap_app, tally_app. }
    rewrite Hadd. split; [lia|].
    intros H. apply andb_true_iff in H as [H1 H2].
    apply negb_true_iff in H1. specialize (Heq H2). specialize (Heq1 H1). lia.
Qed.

(** X5.  Notifications are conserved, connection by connection.  After any
    sequence of [Add], [Remove] and loop turns from the start, the [match]
    notifications written to a connection plus its entries still waiting
    never exceed the number of times a client on that connection was added;
    when nothing was removed the two numbers are equal.  So the loop writes a
    [match] only to clients that were added, once per [Add], and loses
    none. *)
Theorem notifications_are_conserved (ops : list PoolOp) (k : nat) :
  tally (on_conn k) (queue (run_ops ops initial))
  + tally (match_to k) (wire (run_ops ops initial))
  ≤ tally (on_conn k) (omap added ops)
  ∧ (forallb (λ op, negb (is_remove op)) ops = true →
     tally (on_conn k) (queue (run_ops ops initial))
     + tally (match_to k) (wire (run_ops ops initial))
     = tally (on_conn k) (omap added ops)).
Proof.
  destruct (counts_run_ops k ops initial) as [Hle Heq].
  change (queue initial) with (@nil Client) in Hle, Heq.
  change (wire initial) with (@nil Written) in Hle, Heq.
  rewrite !tally_nil in Hle, Heq.
  split; [lia|]. intros H. specialize (Heq H). lia.
Qed.

Lemma notifications_are_conserved_example :
  let ops := [OpAdd (mkClient "a" 1); OpAdd (mkClient "b" 2); OpRun;
              OpAdd (mkClient "c" 3)] in
  tally (on_conn 2) (queue (run_ops ops initial))
  + tally (match_to 2) (wire (run_ops ops initial))
  = tally (on_conn 2) (omap added ops).
Proof.
  apply (proj2 (notifications_are_conserved
                  [OpAdd (mkClient "a" 1); OpAdd (mkClient "b" 2); OpRun;
                   OpAdd (mkClient "c" 3)] 2)).
  reflexivity.
Defined.

(** * Further properties of the connection manager *)

(** X7.  The read loop ends at the first read error: frames that arrive
    after it, decodable or not, have no effect at all. *)
Theorem nothing_is_read_after_an_error (clientID : string) (pre post : list Inbound)
    (t : Z) (unexpected : bool) :
  ∀ deadline w,
    read_loop clientID deadline (pre ++ Data t (ReadErr unexpected) :: post) w
    = read_loop clientID deadline (pre ++ [Data t (ReadErr unexpected)]) w.
Proof.
  induction pre as [|x pre IH]; intros deadline w.
  - cbn [app read_loop]. by destruct (t <=? deadline)%Z.
  - destruct x as [t'|t' [msg|u]]; cbn [app read_loop];
      destruct (t' <=? deadline)%Z; try done; apply IH.
Qed.

(** X8.  Last connection wins.  When the same identity is established twice,
    the registry holds the second client, both clients wait in the pool, and
    a message addressed to that identity is written to the second
    connection only. *)
Theorem last_connection_wins (c1 c2 : Client) (w : World) (msg : Message) :
  ID c1 = ID c2 → To msg = ID c2 → To msg ≠ "" →
  let w' := establish c2 (establish c1 w) in
  clients w' !! ID c1 = Some c2
  ∧ queue w' = queue w ++ [c1; c2]
  ∧ wire (handleMessage msg w')
    = wire w' ++ [mkWritten (Conn c2) msg (negb (is_dead (Conn c2) w))].
Proof.
  intros Hid Hto Hne. cbv zeta.
  destruct (establish_frame c2 (establish c1 w)) as (Hc & Hq & _ & Hd & _).
  destruct (establish_frame c1 w) as (_ & Hq1 & _ & Hd1 & _).
  assert (Hreg : clients (establish c2 (establish c1 w)) !! To msg = Some c2).
  { rewrite Hc, Hto. apply lookup_insert_eq. }
  split; [by rewrite Hid, <- Hto|].
  split; [by rewrite Hq, Hq1, <- app_assoc|].
  rewrite (handleMessage_routed msg _ c2 Hne Hreg).
  destruct (log_if_frame (is_dead (Conn c2) (establish c2 (establish c1 w)))
              "Failed to send message" [("to", To msg)]
              (WriteJSON c2 msg (establish c2 (establish c1 w))).2) as (_ & _ & _ & _ & ->).
  unfold WriteJSON, is_dead. cbn [snd wire]. by rewrite Hd, Hd1.
Qed.

Lemma last_connection_wins_example :
  let c1 := mkClient "a" 1 in
  let c2 := mkClient "a" 2 in
  let msg := mkMessage "offer" JNull "a" "b" in
  let w' := establish c2 (establish c1 initial) in
  clients w' !! "a" = Some c2
  ∧ queue w' = queue initial ++ [c1; c2]
  ∧ wire (handleMessage msg w')
    = wire w' ++ [mkWritten 2 msg (negb (is_dead 2 initial))].
Proof.
  apply (last_connection_wins (mkClient "a" 1) (mkClient "a" 2) initial
           (mkMessage "offer" JNull "a" "b")).
  - reflexivity.
  - reflexivity.
  - discriminate.
Defined.

(** ** The bearer header and the logged token *)

Lemma prefix_append (p s : string) : String.prefix p (String.append p s) = true.
Proof.
  induction p as [|a p IH]; simpl; [by destruct s|].
  destruct (ascii_dec a a) as [_|Hne]; [exact IH | by destruct Hne].
Qed.

Lemma substring_whole (s : string) : String.substring 0 (String.length s) s = s.
Proof. induction s as [|a s IH]; simpl; [done | by f_equal]. Qed.

Lemma length_append (p s : string) :
  String.length (String.append p s) = String.length p + String.length s.
Proof. induction p as [|a p IH]; simpl; [done | by f_equal]. Qed.

Lemma substring_after (p s : string) :
  String.substring (String.length p)
    (String.length (String.append p s) - String.length p) (String.append p s) = s.
Proof.
  rewrite length_append.
  replace (String.length p + String.length s - String.length p) with (String.length s) by lia.
  induction p as [|a p IH]; simpl; [apply substring_whole | exact IH].
Qed.

Lemma TrimPrefix_append (p s : string) : TrimPrefix (String.append p s) p = s.
Proof. unfold TrimPrefix, HasPrefix. by rewrite prefix_append, substring_after. Qed.

(** X10.  [TrimPrefix] takes off exactly the prefix it is given, so a token
    sent as [Authorization: Bearer <token>] with no query parameter is
    recovered unchanged, and the handler then treats the request exactly as
    if the same token had come in the query parameter. *)
Theorem bearer_header_is_read_back (Validate : string → option string)
    (tok addr : string) (upgrade : option nat) (now : Z) (ins : list Inbound)
    (w : World) :
  (∀ p s, HasPrefix (String.append p s) p = true ∧ TrimPrefix (String.append p s) p = s)
  ∧ bearer_token (mkRequest "" (String.append "Bearer " tok) addr) = tok
  ∧ handleConnections Validate (mkRequest "" (String.append "Bearer " tok) addr)
      upgrade now ins w
    = handleConnections Validate (mkRequest tok "" addr) upgrade now ins w.
Proof.
  assert (H1 : bearer_token (mkRequest "" (String.append "Bearer " tok) addr) = tok).
  { unfold bearer_token. cbn [query_token Authorization String.eqb].
    unfold HasPrefix. by rewrite prefix_append, TrimPrefix_append. }
  assert (H2 : bearer_token (mkRequest tok "" addr) = tok).
  { unfold bearer_token. cbn [query_token Authorization].
    by destruct (String.eqb_spec tok "") as [->|_]. }
  split; [|split; [exact H1|]].
  - intros p s. split; [apply prefix_append | apply TrimPrefix_append].
  - unfold handleConnections. rewrite H1, H2. reflexivity.
Qed.

Lemma min_is_min (a b : nat) : min a b = Nat.min a b.
Proof. unfold min. destruct (Nat.ltb_spec a b); lia. Qed.

Lemma substring_is_prefix (s : string) :
  ∀ n, String.prefix (String.substring 0 n s) s = true.
Proof.
  induction s as [|a s IH]; intros [|n]; simpl; try done.
  destruct (ascii_dec a a) as [_|Hne]; [apply IH | by destruct Hne].
Qed.

Lemma substring_length (s : string) :
  ∀ n, String.length (String.substring 0 n s) = Nat.min n (String.length s).
Proof.
  induction s as [|a s IH]; intros [|n]; simpl; try done. by f_equal.
Qed.

(** X11.  When the verifier refuses a token, the handler logs a snippet of
    it and never the whole of a long one: the snippet is the first
    [min(10, len)] bytes of the token, followed by three dots.  The slice
    never runs past the end of a short token. *)
Theorem refused_token_is_logged_by_its_head (Validate : string → option string)
    (r : Request) (upgrade : option nat) (now : Z) (ins : list Inbound) (w : World) :
  bearer_token r ≠ "" → Validate (bearer_token r) = None →
  ∃ snippet,
    logs (handleConnections Validate r upgrade now ins w).2
    = logs w ++ [mkLog Error "Token validation failed" [("remote_addr", RemoteAddr r)];
                 mkLog Info "JWT Token expired or invalid"
                   [("token_snippet", String.append snippet "...")]]
    ∧ String.prefix snippet (bearer_token r) = true
    ∧ String.length snippet = Nat.min 10 (String.length (bearer_token r))
    ∧ String.length snippet ≤ 10.
Proof.
  intros Htok Hval. unfold handleConnections.
  rewrite (eqb_empty_false _ Htok), Hval. cbn [snd logs slog].
  eexists. split; [by rewrite <- app_assoc|].
  split; [apply substring_is_prefix|].
  rewrite substring_length, min_is_min. lia.
Qed.

Lemma refused_token_is_logged_by_its_head_example :
  ∃ snippet,
    logs (handleConnections (λ _, None)
            (mkRequest "eyJhbGciOiJSUzI1NiJ9.payload.sig" "" "peer") None 0 [] initial).2
    = logs initial
        ++ [mkLog Error "Token validation failed" [("remote_addr", "peer")];
            mkLog Info "JWT Token expired or invalid"
              [("token_snippet", String.append snippet "...")]]
    ∧ String.prefix snippet "eyJhbGciOiJSUzI1NiJ9.payload.sig" = true
    ∧ String.length snippet = Nat.min 10 (String.length "eyJhbGciOiJSUzI1NiJ9.payload.sig")
    ∧ String.length snippet ≤ 10.
Proof.
  apply (refused_token_is_logged_by_its_head (λ _, None)
           (mkRequest "eyJhbGciOiJSUzI1NiJ9.payload.sig" "" "peer") None 0 [] initial).
  - discriminate.
  - reflexivity.
Defined.

(** * Further properties of the channel-based matcher *)

Lemma isClientActive_true (c : Client) (w : World) :
  Pending.isClientActive c w = true ↔ clients w !! ID c = Some c.
Proof.
  unfold Pending.isClientActive. destruct (clients w !! ID c) as [x|]; [|done].
  rewrite bool_decide_eq_true. split; [by intros -> | by intros [= ->]].
Qed.

Lemma turn_ok_quiet (arrivals : list Client) (pending0 : option Client) (w0 w : World)
    (p : option Client) :
  clients w = clients w0 → dead w = dead w0 → wire w = wire w0 →
  pairings w = pairings w0 →
  (p = None ∨ p = pending0 ∨ ∃ c, p = Some c ∧ c ∈ arrivals) →
  turn_ok arrivals pending0 w0 (p, w).
Proof.
  intros Hc Hd Hw Hp Hpend. repeat split; try done.
  exists [], []. by rewrite !app_nil_r.
Qed.

Lemma matchingLoop_iter_ok (client : Client) (pending : option Client) (w : World) :
  turn_ok [client] pending w (Pending.matchingLoop_iter client (pending, w)).
Proof.
  assert (Hin : client ∈ [client]) by (apply elem_of_cons; by left).
  unfold Pending.matchingLoop_iter.
  destruct (Pending.isClientActive client w) eqn:Ac; cbn [negb].
  2: { apply turn_ok_quiet; try done.
       - unfold pairings. cbn. rewrite omap_app. cbn. by rewrite app_nil_r.
       - by right; left. }
  destruct pending as [p|];
    [|apply turn_ok_quiet; try done; right; right; by exists client].
  destruct (Pending.isClientActive p w) eqn:Ap; cbn [negb].
  2: { apply turn_ok_quiet; try done.
       - unfold pairings. cbn. rewrite omap_app. cbn. by rewrite app_nil_r.
       - right; right; by exists client. }
  destruct (String.eqb_spec (ID p) (ID client)) as [E|E].
  { apply turn_ok_quiet; try done.
    - unfold pairings. cbn. rewrite omap_app. cbn. by rewrite app_nil_r.
    - by right; left. }
  apply isClientActive_true in Ac, Ap.
  unfold WriteJSON, is_dead, slog, log_if. cbn -[bool_decide].
  destruct (bool_decide (Conn p ∈ dead w)); cbn -[bool_decide].
  - repeat split; try done; [right; right; by exists client|].
    exists [mkWritten (Conn p) (MatchMaker.match_msg (ID client)) false], [(ID p, ID client)].
    repeat split.
    + unfold pairings. cbn. rewrite <- app_assoc, omap_app. by cbn.
    + repeat constructor. exists p. repeat split; try done. by right.
    + by repeat constructor.
  - destruct (bool_decide (Conn client ∈ dead w)); cbn;
      (repeat split; try done; [by left|]);
      eexists [mkWritten (Conn p) (MatchMaker.match_msg (ID client)) true;
               mkWritten (Conn client) (MatchMaker.match_msg (ID p)) _],
              [(ID p, ID client)];
      (repeat split;
       [ by rewrite <- app_assoc
       | unfold pairings; cbn; rewrite <- ?app_assoc, omap_app; by cbn
       | repeat constructor;
         [ exists p; repeat split; try done; by right
         | exists client; repeat split; try done; by left ]
       | by repeat constructor ]).
Qed.

Lemma matchingLoop_ok (arrivals : list Client) :
  ∀ pending0 w0,
    turn_ok arrivals pending0 w0
      (foldl (λ st client, Pending.matchingLoop_iter client st) (pending0, w0) arrivals).
Proof.
  induction arrivals as [|client rest IH]; intros pending0 w0.
  - cbn [foldl]. apply turn_ok_quiet; try done. by right; left.
  - cbn [foldl].
    destruct (matchingLoop_iter_ok client pending0 w0)
      as (Hc1 & Hd1 & Hp1 & sent1 & news1 & Hw1 & Hn1 & Hs1 & Hf1).
    destruct (Pending.matchingLoop_iter client (pending0, w0)) as [p1 w1].
    cbn [fst snd] in *.
    destruct (IH p1 w1) as (Hc & Hd & Hp & sent & news & Hw & Hn & Hs & Hf).
    assert (Hp1' : ∀ c, p1 = Some c → c ∈ client :: rest ∨ pending0 = Some c).
    { intros c E. subst p1. destruct Hp1 as [H|[H|(c' & H & Hin)]].
      - discriminate.
      - right. by rewrite H.
      - injection H as ->. left. apply elem_of_cons. left.
        apply elem_of_cons in Hin as [->|Hin]; [done|]. by apply elem_of_nil in Hin. }
    repeat split.
    + by rewrite Hc.
    + by rewrite Hd.
    + destruct Hp as [H|[H|(c & H & Hin)]]; [by left | |].
      * rewrite H. destruct Hp1 as [H1|[H1|(c & H1 & Hin)]]; [by left | by right; left |].
        right; right. exists c. split; [done|].
        apply elem_of_cons. left. apply elem_of_cons in Hin as [->|Hin]; [done|].
        by apply elem_of_nil in Hin.
      * right; right. exists c. split; [done|]. apply elem_of_cons. by right.
    + exists (sent1 ++ sent), (news1 ++ news).
      repeat split.
      * by rewrite Hw, Hw1, <- app_assoc.
      * by rewrite Hn, Hn1, <- app_assoc.
      * apply Forall_app. split.
        -- eapply Forall_impl; [exact Hs1|].
           intros wr (c & [Hin|Hpend] & Hreg & Hcn). 
           ++ exists c. split; [|done]. left. apply elem_of_cons. left.
              apply elem_of_cons in Hin as [->|Hin]; [done|]. by apply elem_of_nil in Hin.
           ++ exists c. split; [by right | done].
        -- eapply Forall_impl; [exact Hs|].
           intros wr (c & Hwho & Hreg & Hcn). rewrite Hc1 in Hreg.
           exists c. split; [|done].
           destruct Hwho as [Hin|Hpend]; [left; apply elem_of_cons; by right|].
           by apply Hp1'.
      * apply Forall_app. by split.
Qed.

(** X12.  The channel-based matcher never pairs an identity with itself:
    whatever clients the channel delivers, in whatever order, and whatever
    the registry holds, every pairing the loop announces is between two
    different identities. *)
Theorem matchingLoop_never_self_matches (arrivals : list Client) (w : World) :
  ∃ news,
    pairings (Pending.matchingLoop arrivals w).2 = pairings w ++ news
    ∧ Forall (λ p : string * string, p.1 ≠ p.2) news.
Proof.
  destruct (matchingLoop_ok arrivals None w)
    as (_ & _ & _ & sent & news & _ & Hn & _ & Hf).
  by exists news.
Qed.

(** * Scenarios *)

Lemma Remove_empty (c : Client) (w : World) : queue w = [] → MatchMaker.Remove c w = w.
Proof. intros Q. unfold MatchMaker.Remove. by rewrite Q. Qed.

(** X14.  Three clients are added and the second leaves before the loop has
    its turn.  Then the loop pairs the first with the third: each of the two
    is written the other's identity, nothing is written to the client that
    left, and the pool ends empty with the loop idle. *)
Theorem departed_client_is_skipped (a b c : Client) (w : World) (n : nat) :
  queue w = [] → ID a ≠ ID b →
  let w' := MatchMaker.Run (S n)
              (MatchMaker.Remove b
                 (MatchMaker.Add c (MatchMaker.Add b (MatchMaker.Add a w)))) in
  wire w' = wire w ++ [mkWritten (Conn a) (mkMessage "match" (JString (ID c)) "" "")
                         (negb (is_dead (Conn a) w));
                       mkWritten (Conn c) (mkMessage "match" (JString (ID a)) "" "")
                         (negb (is_dead (Conn c) w))]
  ∧ queue w' = []
  ∧ notify w' = false.
Proof.
  intros Q Hab. cbv zeta.
  set (w3 := MatchMaker.Add c (MatchMaker.Add b (MatchMaker.Add a w))).
  assert (Q3 : queue w3 = [a] ++ b :: [c]) by (unfold w3; cbn; by rewrite Q).
  pose proof (Remove_first_own b w3 [a] [c] Q3) as Qr.
  destruct (Remove_frame b w3) as (_ & Hn & Hd & Hw).
  set (w4 := MatchMaker.Remove b w3) in *.
  assert (Qr' : queue w4 = [a; c]).
  { apply Qr. repeat constructor. exact Hab. }
  cbn [MatchMaker.Run].
  rewrite (Run_iter_pair w4 a c [] Hn Qr').
  rewrite Run_blocked by done.
  cbn [wire queue notify]. unfold is_dead. rewrite Hw, Hd. done.
Qed.

Lemma departed_client_is_skipped_example :
  let a := mkClient "a" 1 in
  let b := mkClient "b" 2 in
  let c := mkClient "c" 3 in
  let w' := MatchMaker.Run 1
              (MatchMaker.Remove b
                 (MatchMaker.Add c (MatchMaker.Add b (MatchMaker.Add a initial)))) in
  wire w' = wire initial
            ++ [mkWritten 1 (mkMessage "match" (JString "c") "" "") (negb (is_dead 1 initial));
                mkWritten 3 (mkMessage "match" (JString "a") "" "") (negb (is_dead 3 initial))]
  ∧ queue w' = []
  ∧ notify w' = false.
Proof.
  apply (departed_client_is_skipped (mkClient "a" 1) (mkClient "b" 2) (mkClient "c" 3)
           initial 0).
  - reflexivity.
  - discriminate.
Defined.

(** X15.  A whole session.  On a server with nobody waiting, [a] connects,
    then [b]; the loop pairs them; [a] sends a frame addressed to [b]; [b]
    disconnects; [a] sends another frame addressed to [b].  With both
    connections healthy, what is written is, in order: [init] to [a], [init]
    to [b], [match] to [a] with the identity of [b], [match] to [b] with the
    identity of [a], and the first frame to [b] with [from] set to [a].  The
    second frame changes nothing at all; [a] stays registered, [b] is gone,
    nobody waits. *)
Theorem session_from_connect_to_drop (a b : Client) (w : World) (offer ice : Message) :
  queue w = [] → ID a ≠ ID b → ID b ≠ "" →
  is_dead (Conn a) w = false → is_dead (Conn b) w = false →
  To offer = ID b → To ice = ID b →
  let paired := MatchMaker.Run_iter (establish b (establish a w)) in
  let sent := handleMessage (set_From (ID a) offer) paired in
  let left := teardown b sent in
  wire left
  = wire w ++ [mkWritten (Conn a) (mkMessage "init" (JString (ID a)) "" "") true;
               mkWritten (Conn b) (mkMessage "init" (JString (ID b)) "" "") true;
               mkWritten (Conn a) (mkMessage "match" (JString (ID b)) "" "") true;
               mkWritten (Conn b) (mkMessage "match" (JString (ID a)) "" "") true;
               mkWritten (Conn b)
                 (mkMessage (Type_ offer) (Payload offer) (ID b) (ID a)) true]
  ∧ handleMessage (set_From (ID a) ice) left = left
  ∧ clients left !! ID a = Some a
  ∧ clients left !! ID b = None
  ∧ queue left = [].
Proof.
  intros Q Hab Hb Da Db Hto Hto'. cbv zeta.
  destruct (establish_frame a w) as (Hc1 & Hq1 & _ & Hd1 & Hw1).
  destruct (establish_frame b (establish a w)) as (Hc2 & Hq2 & Hn2 & Hd2 & Hw2).
  set (w2 := establish b (establish a w)) in *.
  assert (Q2 : queue w2 = [a; b]) by (by rewrite Hq2, Hq1, Q).
  assert (D2 : dead w2 = dead w) by (by rewrite Hd2).
  assert (Da2 : is_dead (Conn a) w2 = false) by (unfold is_dead; by rewrite D2).
  assert (Db2 : is_dead (Conn b) w2 = false) by (unfold is_dead; by rewrite D2).
  assert (Db1 : is_dead (Conn b) (establish a w) = false)
    by (unfold is_dead; by rewrite Hd1).
  rewrite (Run_iter_pair w2 a b [] Hn2 Q2). rewrite Da2, Db2. cbn [negb].
  match goal with |- context [handleMessage _ ?W] => set (w3 := W) end.
  assert (Hreg : clients w3 !! To (set_From (ID a) offer) = Some b).
  { cbn [To set_From]. unfold w3. cbn [clients]. rewrite Hc2, Hto.
    apply lookup_insert_eq. }
  assert (Hne : To (set_From (ID a) offer) ≠ "") by (cbn; by rewrite Hto).
  rewrite (handleMessage_routed (set_From (ID a) offer) w3 b Hne Hreg).
  assert (Db3 : is_dead (Conn b) w3 = false) by (unfold is_dead, w3; cbn [dead]; exact Db2).
  rewrite Db3. cbn [log_if].
  set (w4 := (WriteJSON b (set_From (ID a) offer) w3).2).
  assert (Hw4 : wire w4 = wire w3 ++ [mkWritten (Conn b) (set_From (ID a) offer) true]).
  { unfold w4, WriteJSON. cbn [snd wire]. by rewrite Db3. }
  assert (Hc4 : clients w4 = clients w2) by done.
  assert (Hq4 : queue w4 = []) by done.
  destruct (teardown_is_keyed_by_identity_aux b w4) as (Hgone & Hkeep).
  split.
  { rewrite teardown_wire, Hw4. unfold w3. cbn [wire].
    rewrite Hw2, Hw1, Da, Db1. cbn [negb]. unfold set_From. rewrite Hto.
    by rewrite <- !app_assoc. }
  split; [apply handleMessage_unroutable; right; cbn; by rewrite Hto'|].
  split.
  { rewrite Hkeep by done. rewrite Hc4, Hc2, lookup_insert_ne by done.
    rewrite Hc1. apply lookup_insert_eq. }
  split; [done|].
  unfold teardown. cbn [queue set_dead slog].
  by rewrite Remove_empty.
Qed.

Lemma session_from_connect_to_drop_example :
  let a := mkClient "alice" 1 in
  let b := mkClient "bob" 2 in
  let offer := mkMessage "offer" (JString "sdp") "bob" "bob" in
  let ice := mkMessage "ice_candidate" JNull "bob" "" in
  let paired := MatchMaker.Run_iter (establish b (establish a initial)) in
  let sent := handleMessage (set_From (ID a) offer) paired in
  let left := teardown b sent in
  wire left
  = wire initial
      ++ [mkWritten 1 (mkMessage "init" (JString "alice") "" "") true;
          mkWritten 2 (mkMessage "init" (JString "bob") "" "") true;
          mkWritten 1 (mkMessage "match" (JString "bob") "" "") true;
          mkWritten 2 (mkMessage "match" (JString "alice") "" "") true;
          mkWritten 2 (mkMessage "offer" (JString "sdp") "bob" "alice") true]
  ∧ handleMessage (set_From (ID a) ice) left = left
  ∧ clients left !! "alice" = Some a
  ∧ clients left !! "bob" = None
  ∧ queue left = [].
Proof.
  apply (session_from_connect_to_drop (mkClient "alice" 1) (mkClient "bob" 2) initial
           (mkMessage "offer" (JString "sdp") "bob" "bob")
           (mkMessage "ice_candidate" JNull "bob" "")).
  - reflexivity.
  - discriminate.
  - discriminate.
  - reflexivity.
  - reflexivity.
  - reflexivity.
  - reflexivity.
Defined.

(** * The client's side *)

Lemma compareTo_refl (a : list N) : Signaling.compareTo a a = Eq.
Proof. induction a as [|x a IH]; cbn; [done|]. by rewrite N.compare_refl. Qed.

Lemma compareTo_Eq (a : list N) : ∀ b, Signaling.compareTo a b = Eq → a = b.
Proof.
  induction a as [|x a IH]; intros [|y b]; cbn; try done.
  destruct (N.compare_spec x y) as [->|H|H]; try done.
  intros E. by rewrite (IH b E).
Qed.

Lemma compareTo_antisym (a : list N) :
  ∀ b, Signaling.compareTo b a = CompOpp (Signaling.compareTo a b).
Proof.
  induction a as [|x a IH]; intros [|y b]; cbn; try done.
  rewrite (N.compare_antisym x y).
  destruct (N.compare x y); cbn; [apply IH | done | done].
Qed.

(** * The registry beside the channel-based matcher *)

(** X17.  In the earlier server an identity that connects twice is handed
    over to its newer connection: the newer client is the active one and the
    older is not.  But when the older connection then ends, its cleanup
    deletes the registry entry all the same; the newer client, still
    connected, is no longer active, and the matcher skips it when the channel
    delivers it: the pending slot stays as it was and nothing is written. *)
Theorem stale_disconnect_hides_reconnection (c1 c2 : Client) (w : World)
    (pending : option Client) :
  ID c1 = ID c2 → c1 ≠ c2 →
  let both := Earlier.connect c2 (Earlier.connect c1 w) in
  let after := Earlier.disconnect c1 both in
  Pending.isClientActive c2 both = true
  ∧ Pending.isClientActive c1 both = false
  ∧ Pending.isClientActive c2 after = false
  ∧ (Pending.matchingLoop_iter c2 (pending, after)).1 = pending
  ∧ wire (Pending.matchingLoop_iter c2 (pending, after)).2 = wire after.
Proof.
  intros Hid Hne. cbv zeta.
  assert (Hboth : clients (Earlier.connect c2 (Earlier.connect c1 w))
                  = <[ID c2 := c2]> (<[ID c1 := c1]> (clients w))) by done.
  assert (Hafter : clients (Earlier.disconnect c1 (Earlier.connect c2 (Earlier.connect c1 w)))
                   = delete (ID c1) (<[ID c2 := c2]> (<[ID c1 := c1]> (clients w)))) by done.
  assert (A2 : Pending.isClientActive c2
                 (Earlier.disconnect c1 (Earlier.connect c2 (Earlier.connect c1 w))) = false).
  { unfold Pending.isClientActive. by rewrite Hafter, <- Hid, lookup_delete_eq. }
  split; [apply isClientActive_true; rewrite Hboth; apply lookup_insert_eq|].
  split.
  { unfold Pending.isClientActive. rewrite Hboth, Hid, lookup_insert_eq.
    apply bool_decide_eq_false. congruence. }
  split; [exact A2|].
  generalize dependent (Earlier.disconnect c1 (Earlier.connect c2 (Earlier.connect c1 w))).
  intros after _ A2. unfold Pending.matchingLoop_iter. rewrite A2.
  split; reflexivity.
Qed.

Lemma stale_disconnect_hides_reconnection_example :
  let c1 := mkClient "a" 1 in
  let c2 := mkClient "a" 2 in
  let both := Earlier.connect c2 (Earlier.connect c1 initial) in
  let after := Earlier.disconnect c1 both in
  Pending.isClientActive c2 both = true
  ∧ Pending.isClientActive c1 both = false
  ∧ Pending.isClientActive c2 after = false
  ∧ (Pending.matchingLoop_iter c2 (None, after)).1 = None
  ∧ wire (Pending.matchingLoop_iter c2 (None, after)).2 = wire after.
Proof.
  apply (stale_disconnect_hides_reconnection (mkClient "a" 1) (mkClient "a" 2) initial None).
  - reflexivity.
  - discriminate.
Defined.

(** * The server on any schedule *)

Lemma run_app (a b : list Step) (w : World) : run (a ++ b) w = run b (run a w).
Proof. apply foldl_app. Qed.












(** * Liveness on a schedule *)



















(** * Further properties on a schedule *)

Lemma of_identity_app (id : string) (l1 l2 : list Client) :
  of_identity id (l1 ++ l2) = of_identity id l1 ++ of_identity id l2.
Proof. unfold of_identity. apply List.filter_app. Qed.

Lemma Remove_other_identity (c : Client) (w : World) (id : string) :
  id ≠ ID c → of_identity id (queue (MatchMaker.Remove c w)) = of_identity id (queue w).
Proof.
  intros Hne.
  destruct (Remove_cases c w) as [[_ ->]|(l1 & x & l2 & -> & _ & Hx & ->)]; [done|].
  rewrite !of_identity_app. f_equal. unfold of_identity. cbn.
  assert (String.eqb (ID x) id = false) as ->; [|done].
  apply String.eqb_neq. congruence.
Qed.

(** X6.  A frame that a handler reads changes neither the registry nor the
    pool nor the wake flag.  And every step of a connection's handler, its
    cleanup included, leaves alone what belongs to other identities: their
    registry entries and their waiting entries are as before.  (What belongs
    to the handler's own identity is not protected: its cleanup deletes the
    entry and dequeues the oldest waiting client of that identity, whichever
    connection they are of.) *)
Theorem handler_touches_only_its_identity :
  (∀ c msg w,
      clients (step w (Receives c msg)) = clients w
      ∧ queue (step w (Receives c msg)) = queue w
      ∧ notify (step w (Receives c msg)) = notify w)
  ∧ (∀ s c w id,
        owner s = Some c → id ≠ ID c →
        clients (step w s) !! id = clients w !! id
        ∧ of_identity id (queue (step w s)) = of_identity id (queue w)).
Proof.
  split.
  - intros c msg w. cbn [step].
    by destruct (handleMessage_frame (set_From (ID c) msg) w) as (-> & -> & -> & _).
  - intros s c w id Hown Hne.
    destruct s as [c'|c'|c'|c' msg|c' u|c'|c'|c'|]; cbn [owner] in Hown;
      try discriminate; injection Hown as ->; cbn [step].
    + split; [cbn; by rewrite lookup_insert_ne|done].
    + done.
    + split; [done|].
      change (queue (MatchMaker.Add c w)) with (queue w ++ [c]).
      rewrite of_identity_app. unfold of_identity at 2. simpl.
      assert (String.eqb (ID c) id = false) as ->; [|by rewrite app_nil_r].
      apply String.eqb_neq. congruence.
    + by destruct (handleMessage_frame (set_From (ID c) msg) w) as (-> & -> & _).
    + by destruct (read_failed_frame (ID c) u w) as (-> & -> & _).
    + split; [cbn; by rewrite lookup_delete_ne|done].
    + change (clients (slog Info "Client fully disconnected" [("client_id", ID c)]
                         (MatchMaker.Remove c w)))
        with (clients (MatchMaker.Remove c w)).
      change (queue (slog Info "Client fully disconnected" [("client_id", ID c)]
                       (MatchMaker.Remove c w)))
        with (queue (MatchMaker.Remove c w)).
      destruct (Remove_frame c w) as (-> & _). split; [done|].
      by apply Remove_other_identity.
    + done.
Qed.

Lemma handler_touches_only_its_identity_example :
  let a := mkClient "a" 1 in
  let a' := mkClient "a" 2 in
  let b := mkClient "b" 3 in
  let w := run [Registers b; Enqueues b; Registers a; Enqueues a; Registers a'; Enqueues a']
             initial in
  clients (step w (Unregisters a)) !! "b" = clients w !! "b"
  ∧ of_identity "b" (queue (step w (Dequeues a))) = of_identity "b" (queue w).
Proof.
  split.
  - apply (proj2 handler_touches_only_its_identity (Unregisters (mkClient "a" 1))
             (mkClient "a" 1)); [reflexivity | discriminate].
  - apply (proj2 handler_touches_only_its_identity (Dequeues (mkClient "a" 1))
             (mkClient "a" 1)); [reflexivity | discriminate].
Defined.

Lemma turn_or_read_keeps (c : Client) (gap : list Step) :
  Forall (turn_or_read c) gap →
  ∀ w, length (queue w) < 2 →
       clients (run gap w) = clients w ∧ queue (run gap w) = queue w
       ∧ dead (run gap w) = dead w.
Proof.
  induction 1 as [|s gap Hs _ IH]; intros w Hlen; [done|].
  cbn [run foldl]. fold (run gap (step w s)).
  assert (Hstep : clients (step w s) = clients w ∧ queue (step w s) = queue w
                  ∧ dead (step w s) = dead w).
  { destruct Hs as [->|[msg ->]]; cbn [step].
    - by rewrite Run_iter_small.
    - by destruct (handleMessage_frame (set_From (ID c) msg) w) as (-> & -> & _ & ->). }
  destruct Hstep as (Hc & Hq & Hd).
  destruct (IH (step w s)) as (-> & -> & ->); [by rewrite Hq | done].
Qed.

(** X9.  A visit to a server where nobody waits and the identity is not
    registered leaves neither the registry nor the pool changed, wherever the
    pairing loop takes its turns: with any number of loop turns and of the
    visitor's own reads between the steps of its handler, once the handler
    has finished the registry is as before, nobody waits, and the closed
    connections are those of before and the visitor's. *)
Theorem lone_visit_leaves_no_trace (c : Client) (w : World) (unexpected : bool)
    (g1 g2 g3 g4 g5 g6 g7 : list Step) :
  queue w = [] → clients w !! ID c = None →
  Forall (turn_or_read c) g1 → Forall (turn_or_read c) g2 →
  Forall (turn_or_read c) g3 → Forall (turn_or_read c) g4 →
  Forall (turn_or_read c) g5 → Forall (turn_or_read c) g6 →
  Forall (turn_or_read c) g7 →
  let w' := run ([Registers c] ++ g1 ++ [Greets c] ++ g2 ++ [Enqueues c] ++ g3
                 ++ [Leaves c unexpected] ++ g7
                 ++ [Unregisters c] ++ g4 ++ [Dequeues c] ++ g5 ++ [Closes c] ++ g6) w in
  clients w' = clients w ∧ queue w' = [] ∧ dead w' = Conn c :: dead w.
Proof.
  intros Q Hreg H1 H2 H3 H4 H5 H6 H7. cbv zeta. rewrite !run_app.
  set (w1 := run [Registers c] w).
  assert (F1 : clients w1 = <[ID c := c]> (clients w) ∧ queue w1 = [] ∧ dead w1 = dead w)
    by done.
  destruct F1 as (C1 & Q1 & D1).
  destruct (turn_or_read_keeps c g1 H1 w1) as (C2 & Q2 & D2); [rewrite Q1; simpl; lia|].
  set (w2 := run g1 w1) in *.
  set (w3 := run [Greets c] w2).
  assert (F3 : clients w3 = clients w2 ∧ queue w3 = queue w2 ∧ dead w3 = dead w2) by done.
  destruct F3 as (C3 & Q3 & D3).
  destruct (turn_or_read_keeps c g2 H2 w3) as (C4 & Q4 & D4);
    [rewrite Q3, Q2, Q1; simpl; lia|].
  set (w4 := run g2 w3) in *.
  set (w5 := run [Enqueues c] w4).
  assert (F5 : clients w5 = clients w4 ∧ queue w5 = queue w4 ++ [c] ∧ dead w5 = dead w4)
    by done.
  destruct F5 as (C5 & Q5 & D5).
  assert (Q5' : queue w5 = [c]) by (by rewrite Q5, Q4, Q3, Q2, Q1).
  destruct (turn_or_read_keeps c g3 H3 w5) as (C6 & Q6 & D6); [rewrite Q5'; simpl; lia|].
  set (w6 := run g3 w5) in *.
  set (v1 := run [Leaves c unexpected] w6).
  assert (G1 : clients v1 = clients w6 ∧ queue v1 = queue w6 ∧ dead v1 = dead w6).
  { unfold v1. cbn [run foldl step].
    by destruct (read_failed_frame (ID c) unexpected w6) as (-> & -> & _ & -> & _). }
  destruct G1 as (E1 & P1 & B1).
  destruct (turn_or_read_keeps c g7 H7 v1) as (E2 & P2 & B2);
    [rewrite P1, Q6, Q5'; simpl; lia|].
  set (v2 := run g7 v1) in *.
  set (w7 := run [Unregisters c] v2).
  assert (F7 : clients w7 = delete (ID c) (clients v2) ∧ queue w7 = queue v2
               ∧ dead w7 = dead v2) by done.
  destruct F7 as (C7 & Q7 & D7).
  destruct (turn_or_read_keeps c g4 H4 w7) as (C8 & Q8 & D8);
    [rewrite Q7, P2, P1, Q6, Q5'; simpl; lia|].
  set (w8 := run g4 w7) in *.
  set (w9 := run [Dequeues c] w8).
  assert (Q8' : queue w8 = [] ++ c :: []) by (by rewrite Q8, Q7, P2, P1, Q6, Q5').
  assert (F9 : clients w9 = clients w8 ∧ queue w9 = [] ∧ dead w9 = dead w8).
  { unfold w9. cbn. destruct (Remove_frame c w8) as (-> & _ & -> & _).
    repeat split. by rewrite (Remove_first_own c w8 [] [] Q8'). }
  destruct F9 as (C9 & Q9 & D9).
  destruct (turn_or_read_keeps c g5 H5 w9) as (C10 & Q10 & D10); [rewrite Q9; simpl; lia|].
  set (w10 := run g5 w9) in *.
  set (w11 := run [Closes c] w10).
  assert (F11 : clients w11 = clients w10 ∧ queue w11 = queue w10
                ∧ dead w11 = Conn c :: dead w10) by done.
  destruct F11 as (C11 & Q11 & D11).
  destruct (turn_or_read_keeps c g6 H6 w11) as (-> & -> & ->);
    [rewrite Q11, Q10, Q9; simpl; lia|].
  rewrite C11, C10, C9, C8, C7, E2, E1, C6, C5, C4, C3, C2, C1.
  rewrite Q11, Q10, Q9, D11, D10, D9, D8, D7, B2, B1, D6, D5, D4, D3, D2, D1.
  repeat split. by apply delete_insert_id.
Qed.

Lemma lone_visit_leaves_no_trace_example :
  let c := mkClient "a" 1 in
  let offer := mkMessage "offer" JNull "nobody" "" in
  let w' := run ([Registers c] ++ [] ++ [Greets c] ++ [LoopTurn] ++ [Enqueues c]
                 ++ [LoopTurn; Receives c offer; LoopTurn]
                 ++ [Leaves c false] ++ [LoopTurn]
                 ++ [Unregisters c] ++ [LoopTurn] ++ [Dequeues c] ++ [] ++ [Closes c]
                 ++ [LoopTurn]) initial in
  clients w' = clients initial ∧ queue w' = [] ∧ dead w' = Conn c :: dead initial.
Proof.
  apply (lone_visit_leaves_no_trace (mkClient "a" 1) initial false
           [] [LoopTurn]
           [LoopTurn; Receives (mkClient "a" 1) (mkMessage "offer" JNull "nobody" ""); LoopTurn]
           [LoopTurn] [] [LoopTurn] [LoopTurn]).
  - reflexivity.
  - reflexivity.
  - constructor.
  - repeat constructor.
  - repeat (constructor; [first [by left | right; by eexists]|]). constructor.
  - repeat constructor.
  - constructor.
  - repeat constructor.
  - repeat constructor.
Defined.

(** X13.  On any schedule of the earlier server, with handlers registering
    and leaving between the turns of [matchingLoop]: a turn writes only
    [match] frames, and only to the client the channel delivered or to the
    pending client, each being at that turn the registry's entry of its
    identity; it does not change the registry.  A pending client that is no
    longer the registry's entry when the next client is delivered is written
    nothing: the delivered client takes its place. *)
Theorem matchingLoop_turn_notifies_current_clients :
  (∀ events c w0,
      let st := PendingRun.run events w0 in
      let r := Pending.matchingLoop_iter c st in
      clients r.2 = clients st.2
      ∧ ∃ sent,
          wire r.2 = wire st.2 ++ sent
          ∧ Forall (λ wr, ∃ x, (x = c ∨ st.1 = Some x)
                               ∧ clients st.2 !! ID x = Some x
                               ∧ wconn wr = Conn x ∧ Type_ (wmsg wr) = "match") sent)
  ∧ (∀ p c w,
        Pending.isClientActive c w = true → Pending.isClientActive p w = false →
        (Pending.matchingLoop_iter c (Some p, w)).1 = Some c
        ∧ wire (Pending.matchingLoop_iter c (Some p, w)).2 = wire w).
Proof.
  split.
  - intros events c w0. cbv zeta.
    destruct (PendingRun.run events w0) as [pending w].
    destruct (matchingLoop_iter_ok c pending w)
      as (Hc & _ & _ & sent & news & Hw & _ & Hs & _).
    split; [done|]. exists sent. split; [done|].
    eapply Forall_impl; [exact Hs|].
    intros wr (x & Hwho & Hreg & Hconn & Hty). exists x. repeat split; try done.
    destruct Hwho as [Hin|Hp]; [left|by right].
    apply elem_of_cons in Hin as [->|Hin]; [done|]. by apply elem_of_nil in Hin.
  - intros p c w Hc Hp. unfold Pending.matchingLoop_iter. by rewrite Hc, Hp.
Qed.

Lemma matchingLoop_turn_notifies_current_clients_example :
  let a := mkClient "a" 1 in
  let b := mkClient "b" 2 in
  let st := PendingRun.run [PendingRun.Connects a; PendingRun.Connects b;
                            PendingRun.Delivers a; PendingRun.Disconnects a] initial in
  st.1 = Some a
  ∧ (Pending.matchingLoop_iter b (Some a, st.2)).1 = Some b
  ∧ wire (Pending.matchingLoop_iter b (Some a, st.2)).2 = wire st.2.
Proof.
  split; [reflexivity|].
  apply (proj2 matchingLoop_turn_notifies_current_clients (mkClient "a" 1) (mkClient "b" 2)).
  - vm_compute. reflexivity.
  - vm_compute. reflexivity.
Defined.

Lemma compareTo_Lt (a : list N) :
  ∀ b, Signaling.compareTo a b = Lt ↔ precedes a b.
Proof.
  induction a as [|x a IH]; intros [|y b]; cbn.
  - split; [done|]. intros [(p & x & y & ra & rb & H & _)|(y & rb & H)].
    + by destruct p.
    + done.
  - split; [|done]. intros _. right. by exists y, b.
  - split; [done|]. intros [(p & x' & y & ra & rb & _ & H & _)|(y & rb & H)].
    + by destruct p.
    + done.
  - destruct (N.compare_spec x y) as [->|Hlt|Hgt].
    + rewrite IH. split.
      * intros [(p & x' & y' & ra & rb & -> & -> & Hxy)|(y' & rb & ->)].
        -- left. by exists (y :: p), x', y', ra, rb.
        -- right. by exists y', rb.
      * intros [(p & x' & y' & ra & rb & Ha & Hb & Hxy)|(y' & rb & Hb)].
        -- destruct p as [|z p]; cbn in Ha, Hb.
           ++ injection Ha as -> _. injection Hb as -> _. lia.
           ++ injection Ha as _ ->. injection Hb as _ ->.
              left. by exists p, x', y', ra, rb.
        -- injection Hb as ->. right. by exists y', rb.
    + split; [|done]. intros _. left. by exists [], x, y, a, b.
    + split; [done|].
      intros [(p & x' & y' & ra & rb & Ha & Hb & Hxy)|(y' & rb & Hb)].
      * destruct p as [|z p]; cbn in Ha, Hb.
        -- injection Ha as -> _. injection Hb as -> _. lia.
        -- injection Ha as -> _. injection Hb as -> _. lia.
      * injection Hb as -> _. lia.
Qed.

(** X16.  Glare is avoided by the order of the identities.  Two clients that
    know their own identities and are each told the other's by a [match]
    both remember their peer, and each creates the offer exactly when its
    own identity comes before the peer's in the order of code units.  So when
    the identities differ one and only one of them offers, the one of the
    lower identity, and when the server paired an identity with itself
    neither does.  A [match] that comes before [init] throws. *)
Theorem one_side_offers (a b : list N) (sa sb : Signaling.Peer) :
  Signaling.selfId sa = Some a → Signaling.selfId sb = Some b →
  ∃ sa' sb' offers_a offers_b,
    Signaling.on_match b sa = Some (sa', offers_a)
    ∧ Signaling.on_match a sb = Some (sb', offers_b)
    ∧ Signaling.remoteId sa' = Some b
    ∧ Signaling.remoteId sb' = Some a
    ∧ (offers_a = true ↔ precedes a b)
    ∧ (offers_b = true ↔ precedes b a)
    ∧ (a ≠ b → offers_a = negb offers_b)
    ∧ (a = b → offers_a = false ∧ offers_b = false)
    ∧ (∀ st, Signaling.selfId st = None → Signaling.on_match b st = None).
Proof.
  intros Ha Hb. unfold Signaling.on_match. cbn [Signaling.selfId]. rewrite Ha, Hb.
  do 4 eexists. do 4 (split; [reflexivity|]).
  split; [|split; [|split; [|split]]].
  - rewrite <- compareTo_Lt. by destruct (Signaling.compareTo a b).
  - rewrite <- compareTo_Lt. by destruct (Signaling.compareTo b a).
  - intros Hne. rewrite (compareTo_antisym a b).
    destruct (Signaling.compareTo a b) eqn:E; cbn; try done.
    by apply compareTo_Eq in E.
  - intros ->. by rewrite compareTo_refl.
  - by intros st ->.
Qed.

Lemma one_side_offers_example :
  let alice := [49; 48; 55]%N in
  let bob := [49; 49; 48]%N in
  ∃ sa' sb' offers_a offers_b,
    Signaling.on_match bob (Signaling.on_init alice (Signaling.mkPeer None None false))
    = Some (sa', offers_a)
    ∧ Signaling.on_match alice (Signaling.on_init bob (Signaling.mkPeer None None false))
      = Some (sb', offers_b)
    ∧ Signaling.remoteId sa' = Some bob
    ∧ Signaling.remoteId sb' = Some alice
    ∧ (offers_a = true ↔ precedes alice bob)
    ∧ (offers_b = true ↔ precedes bob alice)
    ∧ (alice ≠ bob → offers_a = negb offers_b)
    ∧ (alice = bob → offers_a = false ∧ offers_b = false)
    ∧ (∀ st, Signaling.selfId st = None → Signaling.on_match bob st = None).
Proof.
  apply (one_side_offers [49; 48; 55]%N [49; 49; 48]%N
           (Signaling.on_init [49; 48; 55]%N (Signaling.mkPeer None None false))
           (Signaling.on_init [49; 49; 48]%N (Signaling.mkPeer None None false))).
  - reflexivity.
  - reflexivity.
Defined.
